(** * gokit observability pipeline: Loki shipper, delivery adapter and
      context-bound request logger.

    Shallow embedding of [loki/loki.go], of [lokiWriter.Write] from the
    zap-based [logger] package and of the context logger ([logger.Errorf],
    [logger.Debug], [GetRequestId], ...), with the properties of the
    specification stated and proved over these definitions.

    Conventions.
    - Go [string] and [[]byte] are Rocq [string]s (sequences of bytes).
    - Go [int] / [int64] values are [Z]; where the source can overflow
      ([config.BatchSize*2]) the 64-bit wrap-around is written out.
    - Go maps are stdpp [gmap]s.  The iteration order of a Go map is
      unspecified, so the loop of [sendBatch] over [entriesByLevel]
      ([buildStreams]) takes the order in which [range] visits the map as
      an argument, a permutation of the map's contents.
    - A goroutine is a step function over an explicit state; what it does
      to the outside world (calls of [sendBatch], text printed on stdout)
      is recorded in that state. *)

From stdpp Require Import gmap strings list fin_maps pretty.
From Stdlib Require Import ZArith Ascii.

Open Scope Z_scope.

(** [fmt.Sprintf("%d", n)]: the decimal rendering of an integer. *)
Definition Sprintf_d (n : Z) : string := pretty n.

Example Sprintf_d_negative : Sprintf_d (-42) = "-42".
Proof. reflexivity. Qed.

Example Sprintf_d_zero : Sprintf_d 0 = "0".
Proof. reflexivity. Qed.

(** Length of a slice as a Go [int]. *)
Definition len {A} (l : list A) : Z := Z.of_nat (length l).

(** Two's-complement wrap-around of 64-bit [int] arithmetic. *)
Definition wrap64 (z : Z) : Z := (z + 2 ^ 63) mod 2 ^ 64 - 2 ^ 63.

Lemma append_cons a (s t : string) : String a s +:+ t = String a (s +:+ t).
Proof. reflexivity. Qed.

Lemma append_nil (t : string) : "" +:+ t = t.
Proof. reflexivity. Qed.

Lemma length_append (s t : string) :
  String.length (s +:+ t) = (String.length s + String.length t)%nat.
Proof.
  induction s as [|a s IH]; [done|]. rewrite append_cons. simpl. by rewrite IH.
Qed.

Module Loki.

(** [type entry struct].  A [time.Time] is represented by the [int64] that
    its method [UnixNano] returns, the only way the client looks at it. *)
Record entry := mkEntry {
  Timestamp : Z;
  Message : string;
  Level : string
}.

#[global] Instance entry_eq_dec : EqDecision entry.
Proof. solve_decision. Defined.

(** [type stream struct] *)
Record stream := mkStream {
  Stream : gmap string string;
  Values : list (list string)
}.

(** [type pushRequest struct] *)
Record pushRequest := mkPushRequest {
  Streams : list stream
}.

(** [*http.Client], of which the package sets only [Timeout]
    (a [time.Duration], in nanoseconds). *)
Record httpClient := mkHttpClient {
  Timeout : Z
}.

(** [type Config struct]; [HTTPClient] may be nil. *)
Record Config := mkConfig {
  cfgURL : string;
  cfgBatchSize : Z;
  cfgBatchWait : Z;
  cfgLabels : gmap string string;
  cfgHTTPClient : option httpClient
}.

(** [type Client struct].  The channels [entriesQueue] and [done] are
    shared mutable objects: they live in [state] below. *)
Record Client := mkClient {
  URL : string;
  BatchSize : Z;
  BatchWait : Z;
  Labels : gmap string string;
  HTTPClient : httpClient
}.

(** ** sendBatch: grouping by level *)

(** [entriesByLevel[e.Level] = append(entriesByLevel[e.Level], e)];
    indexing a Go map at an absent key yields the nil slice. *)
Definition addByLevel (m : gmap string (list entry)) (e : entry)
  : gmap string (list entry) :=
  <[Level e := default [] (m !! Level e) ++ [e]]> m.

(** The first loop of [sendBatch]. *)
Definition groupByLevel (entries : list entry) : gmap string (list entry) :=
  fold_left addByLevel entries ∅.

(** The inner loop over [levelEntries]: one [[]string{ts, e.Message}] per
    entry. *)
Definition valueOf (e : entry) : list string :=
  [Sprintf_d (Timestamp e); Message e].

(** The body of the loop over [entriesByLevel]: the labels are a copy of
    [c.Labels] in which ["level"] is then set (overwriting a default of
    that name). *)
Definition streamFor (c : Client) (level : string) (levelEntries : list entry)
  : stream :=
  {| Stream := <["level" := level]> (Labels c);
     Values := map valueOf levelEntries |}.

(** The second loop of [sendBatch], for a given visiting order [kvs] of the
    map's key/value pairs. *)
Definition buildStreams (c : Client) (kvs : list (string * list entry))
  : list stream :=
  map (λ kv, streamFor c kv.1 kv.2) kvs.

(** A visiting order of [range entriesByLevel]. *)
Definition rangeOrder (entries : list entry) (kvs : list (string * list entry))
  : Prop :=
  kvs ≡ₚ map_to_list (groupByLevel entries).

(** [reqBody := pushRequest{Streams: streams}] *)
Definition pushRequestOf (c : Client) (kvs : list (string * list entry))
  : pushRequest :=
  {| Streams := buildStreams c kvs |}.

(** The request body with the canonical visiting order. *)
Definition sendBatchBody (c : Client) (entries : list entry) : pushRequest :=
  pushRequestOf c (map_to_list (groupByLevel entries)).

(** ** sendBatch: the push *)

(** The network as [sendBatch] sees it: whether
    [http.NewRequestWithContext] accepts the URL, and what the one call
    of [c.HTTPClient.Do] returns in the end ([None]: an error, [Some
    status]: a response with that status code).  What the HTTP client
    does inside that call, such as following redirects, is its own
    business and is not described here. *)
Record Transport := mkTransport {
  requestOk : string → bool;
  roundTrip : string → pushRequest → option Z
}.

(** The local diagnostics of the package, by the [fmt.Printf] that emits
    them. *)
Inductive diagnostic :=
| QueueFull (message : string)
| RequestError
| SendError
| ErrorResponse (status : Z).

(** What a call of [sendBatch] does to the outside world: [HttpPost]
    stands for the call [c.HTTPClient.Do(req)] with the POST request for
    [url] whose body is the [json.Marshal] encoding of [body]; [Diag] for
    a diagnostic printed. *)
Inductive effect :=
| HttpPost (url : string) (body : pushRequest)
| Diag (d : diagnostic).

(** [sendBatch] after the grouping: [json.Marshal] cannot fail on a
    [pushRequest] (string maps and string slices only), so its error
    branch is dead; the request is created, handed to [c.HTTPClient.Do]
    once, and the status checked.  The request body is kept as the
    [pushRequest] value, here with the streams in the canonical visiting
    order; its encoding to bytes is the JSON library's. *)
Definition sendBatch (t : Transport) (c : Client) (entries : list entry)
  : list effect :=
  let reqBody := sendBatchBody c entries in
  if requestOk t (URL c) then
    HttpPost (URL c) reqBody ::
    match roundTrip t (URL c) reqBody with
    | None => [Diag SendError]
    | Some status =>
        if bool_decide (status < 200 ∨ status >= 300)
        then [Diag (ErrorResponse status)] else []
    end
  else [Diag RequestError].

Definition isHttpPost (x : effect) : bool :=
  match x with HttpPost _ _ => true | Diag _ => false end.

(** ** The client: queue, shutdown channel and worker *)

(** The mutable state a [Client] points to and the state of its worker
    goroutine: the buffered channel [entriesQueue] (contents and
    capacity), whether [done] has been closed, the worker's local [batch],
    whether the worker is still in its loop, the calls of [sendBatch] made
    so far (each with its argument), and the diagnostics printed by
    [Log]. *)
Record state := mkState {
  queue : list entry;
  queueCap : Z;
  doneClosed : bool;
  batch : list entry;
  running : bool;
  sent : list (list entry);
  printed : list diagnostic
}.

Definition withQueue (q : list entry) (s : state) : state :=
  mkState q (queueCap s) (doneClosed s) (batch s) (running s) (sent s)
          (printed s).

Definition withPrinted (d : diagnostic) (s : state) : state :=
  mkState (queue s) (queueCap s) (doneClosed s) (batch s) (running s)
          (sent s) (printed s ++ [d]).

Definition withBatch (b : list entry) (s : state) : state :=
  mkState (queue s) (queueCap s) (doneClosed s) b (running s) (sent s)
          (printed s).

(** [c.sendBatch(batch)] as seen from the worker: one more call. *)
Definition callSendBatch (b : list entry) (s : state) : state :=
  mkState (queue s) (queueCap s) (doneClosed s) (batch s) (running s)
          (sent s ++ [b]) (printed s).

(** [return] from [processQueue]. *)
Definition returned (s : state) : state :=
  mkState (queue s) (queueCap s) (doneClosed s) (batch s) false (sent s)
          (printed s).

(** [make(chan entry, n)] panics on a negative size.  The runtime also
    refuses sizes too large to allocate; that bound depends on the
    platform and is left out, so [NewClient] below succeeds here for some
    huge batch sizes on which the Go program would panic. *)
Definition makeChan (n : Z) : option Z :=
  if bool_decide (n < 0) then None else Some n.

(** [NewClient]: the defaults, the two channels and [go
    client.processQueue()].  [None] when [make] panics. *)
Definition NewClient (config : Config) : option (Client * state) :=
  let batchSize :=
    if bool_decide (cfgBatchSize config <= 0) then 100
    else cfgBatchSize config in
  let batchWait :=
    if bool_decide (cfgBatchWait config <= 0) then 1 * 1000000000
    else cfgBatchWait config in
  let httpc :=
    match cfgHTTPClient config with
    | None => {| Timeout := 5 * 1000000000 |}
    | Some h => h
    end in
  match makeChan (wrap64 (batchSize * 2)) with
  | None => None
  | Some cap =>
      Some ({| URL := cfgURL config; BatchSize := batchSize;
               BatchWait := batchWait; Labels := cfgLabels config;
               HTTPClient := httpc |},
            {| queue := []; queueCap := cap; doneClosed := false;
               batch := []; running := true; sent := []; printed := [] |})
  end.

(** [Stop]: [close(c.done)]; closing a closed channel panics ([None]). *)
Definition Stop (s : state) : option state :=
  if doneClosed s then None
  else Some (mkState (queue s) (queueCap s) true (batch s) (running s)
                     (sent s) (printed s)).

(** [Log]: a [select] with a send case and a [default].  The send is taken
    when the channel's buffer has room; otherwise the default prints the
    diagnostic.  Either way the call returns. *)
Definition Log (timestamp : Z) (level message : string) (s : state)
  : state :=
  if bool_decide (len (queue s) < queueCap s)
  then withQueue (queue s ++ [mkEntry timestamp message level]) s
  else withPrinted (QueueFull message) s.

(** The three cases of the [select] in [processQueue]. *)
Inductive selectCase := CaseDone | CaseEntry | CaseTick.

(** One iteration of the loop of [processQueue] when [select] takes case
    [k]; [None] when that case is not ready (nothing to receive) or the
    goroutine has returned.  The ticker may fire at any time. *)
Definition processQueue (c : Client) (k : selectCase) (s : state)
  : option state :=
  if running s then
    match k with
    | CaseDone =>
        if doneClosed s then
          Some (returned
                  (if bool_decide (len (batch s) > 0)
                   then callSendBatch (batch s) s else s))
        else None
    | CaseEntry =>
        match queue s with
        | [] => None
        | e :: q =>
            let s1 := withBatch (batch s ++ [e]) (withQueue q s) in
            Some (if bool_decide (len (batch s1) >= BatchSize c)
                  then withBatch [] (callSendBatch (batch s1) s1)
                  else s1)
        end
    | CaseTick =>
        Some (if bool_decide (len (batch s) > 0)
              then withBatch [] (callSendBatch (batch s) s)
              else s)
    end
  else None.

(** Everything that can happen to a client: a producer logs, someone
    stops it, the worker runs one iteration. *)
Inductive action :=
| ActLog (timestamp : Z) (level message : string)
| ActStop
| ActWorker (k : selectCase).

Definition exec (c : Client) (a : action) (s : state) : option state :=
  match a with
  | ActLog ts level message => Some (Log ts level message s)
  | ActStop => Stop s
  | ActWorker k => processQueue c k s
  end.

Definition step (c : Client) (s s' : state) : Prop :=
  ∃ a, exec c a s = Some s'.

(** Running a schedule of actions; [None] as soon as one is not enabled
    or panics. *)
Fixpoint run (c : Client) (acts : list action) (s : state) : option state :=
  match acts with
  | [] => Some s
  | a :: acts => s' ← exec c a s; run c acts s'
  end.

(** What the worker has done to the outside world. *)
Definition effects (t : Transport) (c : Client) (s : state) : list effect :=
  mjoin (map (sendBatch t c) (sent s)).

Definition httpCalls (t : Transport) (c : Client) (s : state) : list effect :=
  filter (λ x, isHttpPost x = true) (effects t c s).

(** The records of level [l], in arrival order. *)
Definition ofLevel (l : string) (entries : list entry) : list entry :=
  filter (λ e, Level e = l) entries.

Lemma groupByLevel_snoc entries e :
  groupByLevel (entries ++ [e]) = addByLevel (groupByLevel entries) e.
Proof. unfold groupByLevel. by rewrite fold_left_app. Qed.

Lemma ofLevel_snoc l entries e :
  ofLevel l (entries ++ [e]) =
  ofLevel l entries ++ (if decide (Level e = l) then [e] else []).
Proof.
  unfold ofLevel. by rewrite filter_app.
Qed.

(** What the map holds at each level after the first loop. *)
Lemma groupByLevel_lookup entries l :
  groupByLevel entries !! l =
  match ofLevel l entries with [] => None | es => Some es end.
Proof.
  induction entries as [|e entries IH] using rev_ind; [done|].
  rewrite groupByLevel_snoc, ofLevel_snoc. unfold addByLevel.
  destruct (decide (Level e = l)) as [->|Hne].
  - rewrite lookup_insert_eq, IH.
    by destruct (ofLevel l entries).
  - rewrite lookup_insert_ne by done. rewrite IH, app_nil_r. done.
Qed.

Lemma groupByLevel_lookup_Some entries l es :
  groupByLevel entries !! l = Some es → es = ofLevel l entries ∧ es ≠ [].
Proof.
  rewrite groupByLevel_lookup.
  destruct (ofLevel l entries); [done|]. intros [= <-]. done.
Qed.

Lemma ofLevel_nonempty l entries :
  ofLevel l entries ≠ [] ↔ ∃ e, e ∈ entries ∧ Level e = l.
Proof.
  unfold ofLevel. split.
  - destruct (filter _ entries) as [|e es] eqn:Hf; [done|]. intros _.
    assert (He : e ∈ filter (λ e, Level e = l) entries)
      by (rewrite Hf; left).
    apply list_elem_of_filter in He as [? ?]. eauto.
  - intros (e & Hin & Hl) Hnil.
    assert (He : e ∈ filter (λ e, Level e = l) entries)
      by (apply list_elem_of_filter; done).
    rewrite Hnil in He. by apply elem_of_nil in He.
Qed.

(** The map's contents, flattened in any visiting order, are the batch. *)
Lemma groupByLevel_flatten entries :
  mjoin (map_to_list (groupByLevel entries)).*2 ≡ₚ entries.
Proof.
  induction entries as [|e entries IH] using rev_ind.
  - unfold groupByLevel. simpl. by rewrite map_to_list_empty.
  - rewrite groupByLevel_snoc. unfold addByLevel.
    set (m := groupByLevel entries) in *.
    transitivity (e :: entries); [|apply Permutation_cons_append].
    transitivity (e :: mjoin (map_to_list m).*2); [|by constructor].
    destruct (m !! Level e) as [old|] eqn:Hm; simpl.
    + rewrite <- (insert_delete_eq m (Level e) (old ++ [e])).
      rewrite map_to_list_insert by apply lookup_delete_eq.
      rewrite <- (map_to_list_delete m (Level e) old Hm). simpl.
      rewrite <- (assoc_L (++)). simpl. symmetry. apply Permutation_middle.
    + by rewrite map_to_list_insert.
Qed.

Lemma rangeOrder_elem entries kvs l es :
  rangeOrder entries kvs →
  (l, es) ∈ kvs ↔ groupByLevel entries !! l = Some es.
Proof.
  unfold rangeOrder. intros ->. apply elem_of_map_to_list.
Qed.

Lemma rangeOrder_NoDup entries kvs :
  rangeOrder entries kvs → NoDup kvs.*1.
Proof.
  unfold rangeOrder. intros ->. apply NoDup_fst_map_to_list.
Qed.

Lemma buildStreams_values c kvs :
  mjoin (map Values (buildStreams c kvs)) = map valueOf (mjoin kvs.*2).
Proof.
  induction kvs as [|[l es] kvs IH]; [done|].
  simpl. rewrite IH. by rewrite map_app.
Qed.

Lemma buildStreams_ext c entries kvs :
  (∀ l es, (l, es) ∈ kvs → es = ofLevel l entries) →
  buildStreams c kvs =
  map (λ l, {| Stream := <["level" := l]> (Labels c);
               Values := map valueOf (ofLevel l entries) |}) kvs.*1.
Proof.
  induction kvs as [|[l es] kvs IH]; intros Hall; [done|].
  simpl. f_equal.
  - unfold streamFor. simpl. by rewrite (Hall l es) by left.
  - apply IH. intros l' es' Hin. apply Hall. by right.
Qed.

(** C1.  For a flushed batch [entries] and any order [kvs] in which Go may
    visit [entriesByLevel], the streams that [sendBatch] builds are, for a
    duplicate-free list [levels] of exactly the severities occurring in the
    batch, one stream per such severity; the stream of severity [l] has the
    labels [c.Labels] with ["level"] set to [l], and its values are the
    pairs [[UnixNano in decimal; message]] of the records of severity [l]
    in their arrival order.  Taken together the values of all streams are
    the values of the batch's records, each exactly once. *)
Theorem sendBatch_streams_partition (c : Client) (entries : list entry)
    (kvs : list (string * list entry)) (Hord : rangeOrder entries kvs) :
  ∃ levels : list string,
    NoDup levels ∧
    (∀ l, l ∈ levels ↔ ∃ e, e ∈ entries ∧ Level e = l) ∧
    Streams (pushRequestOf c kvs) =
      map (λ l, {| Stream := <["level" := l]> (Labels c);
                   Values := map (λ e, [Sprintf_d (Timestamp e); Message e])
                                 (filter (λ e, Level e = l) entries) |})
          levels ∧
    mjoin (map Values (Streams (pushRequestOf c kvs))) ≡ₚ
      map (λ e, [Sprintf_d (Timestamp e); Message e]) entries.
Proof.
  exists kvs.*1. split_and!.
  - by eapply rangeOrder_NoDup.
  - intros l. rewrite <- ofLevel_nonempty. split.
    + intros ([l' es] & -> & Hin)%list_elem_of_fmap. simpl.
      apply (rangeOrder_elem _ _ _ _ Hord) in Hin.
      by apply groupByLevel_lookup_Some in Hin as [<- ?].
    + intros Hne. apply list_elem_of_fmap.
      exists (l, ofLevel l entries). split; [done|].
      apply (rangeOrder_elem _ _ _ _ Hord).
      rewrite groupByLevel_lookup. by destruct (ofLevel l entries).
  - simpl. apply buildStreams_ext. intros l es Hin.
    apply (rangeOrder_elem _ _ _ _ Hord) in Hin.
    by apply groupByLevel_lookup_Some in Hin as [-> ?].
  - simpl. rewrite buildStreams_values.
    change (λ e, [Sprintf_d (Timestamp e); Message e]) with valueOf.
    apply Permutation_map. rewrite <- (groupByLevel_flatten entries).
    unfold rangeOrder in Hord. by rewrite Hord.
Qed.

Definition sampleClient : Client :=
  {| URL := "http://loki:3100/loki/api/v1/push"; BatchSize := 2;
     BatchWait := 1000000000; Labels := {["app" := "gokit"]};
     HTTPClient := {| Timeout := 5000000000 |} |}.

Definition sampleBatch : list entry :=
  [ mkEntry 1700000000000000001 "a" "info";
    mkEntry 1700000000000000002 "boom" "error";
    mkEntry 1700000000000000003 "b" "info" ].

Lemma sendBatch_streams_partition_witness :
  ∃ levels : list string,
    NoDup levels ∧
    (∀ l, l ∈ levels ↔ ∃ e, e ∈ sampleBatch ∧ Level e = l) ∧
    Streams (sendBatchBody sampleClient sampleBatch) =
      map (λ l, {| Stream := <["level" := l]> (Labels sampleClient);
                   Values := map (λ e, [Sprintf_d (Timestamp e); Message e])
                                 (filter (λ e, Level e = l) sampleBatch) |})
          levels ∧
    mjoin (map Values (Streams (sendBatchBody sampleClient sampleBatch))) ≡ₚ
      map (λ e, [Sprintf_d (Timestamp e); Message e]) sampleBatch.
Proof.
  apply (sendBatch_streams_partition sampleClient sampleBatch
           (map_to_list (groupByLevel sampleBatch))).
  unfold rangeOrder. reflexivity.
Defined.

(** The end-to-end example of the specification: two [info] records give
    one stream holding both values in arrival order. *)
Example sendBatch_two_info :
  map Values (Streams (sendBatchBody sampleClient
                [mkEntry 5 "a" "info"; mkEntry 7 "b" "info"])) =
  [[["5"; "a"]; ["7"; "b"]]].
Proof. vm_compute. reflexivity. Qed.

(** ** The worker loop *)

Lemma len_pos_nonempty {A} (l : list A) : len l > 0 ↔ l ≠ [].
Proof. unfold len. destruct l; simpl; split; (done || lia). Qed.

Lemma snoc_neq {A} (l : list A) (x : A) : l ++ [x] ≠ l.
Proof.
  intros H. apply (f_equal length) in H. rewrite length_app in H.
  simpl in H. lia.
Qed.

Lemma effects_callSendBatch t c b s :
  effects t c (callSendBatch b s) = effects t c s ++ sendBatch t c b.
Proof.
  unfold effects. simpl. rewrite map_app, join_app. simpl.
  by rewrite app_nil_r.
Qed.

(** Once the worker has returned nothing calls [sendBatch] any more,
    whatever producers and callers of [Stop] do. *)
Lemma step_after_return c s s' :
  running s = false → step c s s' → running s' = false ∧ sent s' = sent s.
Proof.
  intros Hr [[ts level message| |k] Hex]; simpl in Hex.
  - injection Hex as <-. unfold Log. by case_bool_decide.
  - unfold Stop in Hex. destruct (doneClosed s); [done|].
    by injection Hex as <-.
  - unfold processQueue in Hex. by rewrite Hr in Hex.
Qed.

Lemma steps_after_return c s s' :
  running s = false → rtc (step c) s s' →
  running s' = false ∧ sent s' = sent s.
Proof.
  intros Hr Hsteps. induction Hsteps as [s|s1 s2 s3 H12 _ IH]; [done|].
  destruct (step_after_return c s1 s2 Hr H12) as [Hr2 Hs2].
  destruct (IH Hr2) as [? ?]. split; congruence.
Qed.

(** A closed [done] channel stays closed. *)
Lemma step_doneClosed c s s' :
  doneClosed s = true → step c s s' → doneClosed s' = true.
Proof.
  intros Hd [[ts level message| |k] Hex]; simpl in Hex.
  - injection Hex as <-. unfold Log. by case_bool_decide.
  - unfold Stop in Hex. by rewrite Hd in Hex.
  - unfold processQueue in Hex.
    destruct (running s); [|done]. destruct k.
    + rewrite Hd in Hex. injection Hex as <-. by case_bool_decide.
    + destruct (queue s); [done|]. injection Hex as <-.
      by case_bool_decide.
    + injection Hex as <-. by case_bool_decide.
Qed.

Lemma steps_doneClosed c s s' :
  doneClosed s = true → rtc (step c) s s' → doneClosed s' = true.
Proof.
  intros Hd Hsteps. induction Hsteps as [s|s1 s2 s3 H12 _ IH]; [done|].
  eauto using step_doneClosed.
Qed.

(** C2.  In the worker loop, when the record [e] received from the queue
    brings the batch to the configured batch size (or beyond), that same
    iteration calls [sendBatch] on the batch including [e], with no timer
    tick involved, and leaves the current batch empty. *)
Theorem processQueue_flush_on_size (t : Transport) (c : Client) (s : state)
    (e : entry) (q : list entry)
    (Hrun : running s = true) (Hrecv : queue s = e :: q)
    (Hfull : len (batch s ++ [e]) >= BatchSize c) :
  ∃ s', processQueue c CaseEntry s = Some s' ∧
        sent s' = sent s ++ [batch s ++ [e]] ∧
        batch s' = [] ∧
        queue s' = q ∧
        running s' = true ∧
        effects t c s' = effects t c s ++ sendBatch t c (batch s ++ [e]).
Proof.
  unfold processQueue. rewrite Hrun, Hrecv. simpl.
  rewrite bool_decide_eq_true_2 by done.
  eexists. split; [done|]. split_and!; try done.
  unfold effects. simpl. rewrite map_app, join_app. simpl.
  by rewrite app_nil_r.
Qed.

Definition sampleTransport : Transport :=
  {| requestOk := λ _, true; roundTrip := λ _ _, Some 204 |}.

(** A running worker of [sampleClient] holding one record, with one more
    waiting in the queue. *)
Definition sampleState : state :=
  {| queue := [mkEntry 2 "b" "info"]; queueCap := 4; doneClosed := false;
     batch := [mkEntry 1 "a" "info"]; running := true; sent := [];
     printed := [] |}.

Lemma processQueue_flush_on_size_witness :
  ∃ s', processQueue sampleClient CaseEntry sampleState = Some s' ∧
        sent s' = [[mkEntry 1 "a" "info"; mkEntry 2 "b" "info"]] ∧
        batch s' = [] ∧
        queue s' = [] ∧
        running s' = true ∧
        effects sampleTransport sampleClient s' =
          effects sampleTransport sampleClient sampleState ++
          sendBatch sampleTransport sampleClient
            [mkEntry 1 "a" "info"; mkEntry 2 "b" "info"].
Proof.
  apply (processQueue_flush_on_size sampleTransport sampleClient sampleState
           (mkEntry 2 "b" "info") []).
  - reflexivity.
  - reflexivity.
  - vm_compute. discriminate.
Defined.

(** C3.  On a timer tick the worker calls [sendBatch] on the current batch
    and empties it if and only if the batch is non-empty; with an empty
    batch the tick changes nothing: no call of [sendBatch], and so no HTTP
    request. *)
Theorem processQueue_tick (t : Transport) (c : Client) (s : state)
    (Hrun : running s = true) :
  ∃ s', processQueue c CaseTick s = Some s' ∧
        (batch s ≠ [] →
           sent s' = sent s ++ [batch s] ∧ batch s' = [] ∧
           effects t c s' = effects t c s ++ sendBatch t c (batch s)) ∧
        (batch s = [] →
           s' = s ∧ httpCalls t c s' = httpCalls t c s) ∧
        (sent s' ≠ sent s ↔ batch s ≠ []).
Proof.
  unfold processQueue. rewrite Hrun. eexists. split; [done|].
  case_bool_decide as Hb; rewrite len_pos_nonempty in Hb.
  - split_and!; try done.
    + intros _. split_and!; try done. apply effects_callSendBatch.
    + simpl. split; [done|]. intros _. apply snoc_neq.
  - apply dec_stable in Hb. split_and!; done.
Qed.

Lemma processQueue_tick_witness :
  ∃ s', processQueue sampleClient CaseTick sampleState = Some s' ∧
        (batch sampleState ≠ [] →
           sent s' = sent sampleState ++ [batch sampleState] ∧
           batch s' = [] ∧
           effects sampleTransport sampleClient s' =
             effects sampleTransport sampleClient sampleState ++
             sendBatch sampleTransport sampleClient (batch sampleState)) ∧
        (batch sampleState = [] →
           s' = sampleState ∧
           httpCalls sampleTransport sampleClient s' =
             httpCalls sampleTransport sampleClient sampleState) ∧
        (sent s' ≠ sent sampleState ↔ batch sampleState ≠ []).
Proof.
  apply (processQueue_tick sampleTransport sampleClient sampleState).
  reflexivity.
Defined.

(** C4.  After [Stop] has closed [done], when the still-running worker
    takes the [done] case it calls [sendBatch] exactly once, on exactly the
    pending batch, if that batch is non-empty, and not at all if it is
    empty; it then returns, and from there on no schedule of further
    actions (logging, stopping, worker iterations) adds a call of
    [sendBatch]. *)
Theorem shutdown_final_flush (c : Client) (s0 s1 s : state)
    (Hstop : Stop s0 = Some s1) (Hlater : rtc (step c) s1 s)
    (Hrun : running s = true) :
  ∃ s', processQueue c CaseDone s = Some s' ∧
        running s' = false ∧
        sent s' = (if bool_decide (batch s = []) then sent s
                   else sent s ++ [batch s]) ∧
        ∀ s'', rtc (step c) s' s'' →
               sent s'' = sent s' ∧ running s'' = false.
Proof.
  assert (doneClosed s = true) as Hd.
  { apply (steps_doneClosed c s1); [|done].
    unfold Stop in Hstop. destruct (doneClosed s0); [done|].
    by injection Hstop as <-. }
  unfold processQueue. rewrite Hrun, Hd. eexists. split; [done|].
  split_and!.
  - by case_bool_decide.
  - case_bool_decide as Hb; rewrite len_pos_nonempty in Hb.
    + by rewrite bool_decide_eq_false_2.
    + apply dec_stable in Hb. by rewrite bool_decide_eq_true_2.
  - intros s'' Hsteps.
    apply steps_after_return in Hsteps as [? ?]; [done|].
    by case_bool_decide.
Qed.

Lemma shutdown_final_flush_witness :
  ∃ s', processQueue sampleClient CaseDone
          (mkState [mkEntry 2 "b" "info"] 4 true [mkEntry 1 "a" "info"] true
                   [] []) = Some s' ∧
        running s' = false ∧
        sent s' = [[mkEntry 1 "a" "info"]] ∧
        ∀ s'', rtc (step sampleClient) s' s'' →
               sent s'' = sent s' ∧ running s'' = false.
Proof.
  apply (shutdown_final_flush sampleClient sampleState
           (mkState [mkEntry 2 "b" "info"] 4 true [mkEntry 1 "a" "info"] true
                    [] [])
           (mkState [mkEntry 2 "b" "info"] 4 true [mkEntry 1 "a" "info"] true
                    [] [])).
  - reflexivity.
  - apply rtc_refl.
  - reflexivity.
Defined.

(** ** Construction and enqueue *)

(** A Go [int] on a 64-bit platform. *)
Definition isInt (z : Z) : Prop := - 2 ^ 63 <= z < 2 ^ 63.

Lemma wrap64_double_nonneg b :
  0 < b < 2 ^ 63 → 0 <= wrap64 (b * 2) → wrap64 (b * 2) = 2 * b.
Proof.
  unfold wrap64.
  change (2 ^ 63) with 9223372036854775808.
  change (2 ^ 64) with 18446744073709551616.
  intros Hb Hw.
  destruct (decide (b * 2 < 9223372036854775808)) as [Hlt|Hge].
  - rewrite Z.mod_small by lia. lia.
  - exfalso.
    replace (b * 2 + 9223372036854775808)
      with (b * 2 - 9223372036854775808 + 1 * 18446744073709551616)
      in Hw by lia.
    rewrite Z_mod_plus_full, Z.mod_small in Hw by lia. lia.
Qed.

Lemma NewClient_BatchSize config c s :
  NewClient config = Some (c, s) →
  BatchSize c = (if bool_decide (cfgBatchSize config <= 0) then 100
                 else cfgBatchSize config).
Proof.
  unfold NewClient. destruct (makeChan _); [|done]. by intros [= <- <-].
Qed.

Lemma makeChan_Some n cap : makeChan n = Some cap → cap = n ∧ 0 <= n.
Proof.
  unfold makeChan. case_bool_decide; [done|]. intros [= <-]. lia.
Qed.

Lemma NewClient_queue config c s :
  isInt (cfgBatchSize config) → NewClient config = Some (c, s) →
  queue s = [] ∧ queueCap s = 2 * BatchSize c ∧ 0 < BatchSize c.
Proof.
  unfold isInt, NewClient. intros Hint.
  set (b := if bool_decide (cfgBatchSize config <= 0) then 100
            else cfgBatchSize config).
  assert (0 < b < 2 ^ 63) as Hb by (subst b; case_bool_decide; lia).
  destruct (makeChan (wrap64 (b * 2))) as [cap|] eqn:Hmk; [|done].
  apply makeChan_Some in Hmk as [-> Hnn]. intros [= <- <-]. simpl.
  split_and!; [done| |lia]. by apply wrap64_double_nonneg.
Qed.

(** The capacity of the channel never changes, and the channel never holds
    more than its capacity. *)
Lemma step_queue_bound c s s' :
  len (queue s) <= queueCap s → step c s s' →
  queueCap s' = queueCap s ∧ len (queue s') <= queueCap s'.
Proof.
  intros Hb [[ts level message| |k] Hex]; simpl in Hex.
  - injection Hex as <-. unfold Log.
    case_bool_decide; simpl; [|done]. split; [done|].
    unfold len in *. rewrite length_app. simpl. lia.
  - unfold Stop in Hex. destruct (doneClosed s); [done|].
    by injection Hex as <-.
  - unfold processQueue in Hex. destruct (running s); [|done].
    destruct k.
    + destruct (doneClosed s); [|done]. injection Hex as <-.
      by case_bool_decide.
    + destruct (queue s) as [|e q] eqn:Hq; [done|]. injection Hex as <-.
      unfold len in *. simpl in Hb.
      case_bool_decide; simpl; (split; [done|lia]).
    + injection Hex as <-. by case_bool_decide.
Qed.

Lemma steps_queue_bound c s s' :
  len (queue s) <= queueCap s → rtc (step c) s s' →
  queueCap s' = queueCap s ∧ len (queue s') <= queueCap s'.
Proof.
  intros Hb Hsteps. induction Hsteps as [s|s1 s2 s3 H12 _ IH]; [done|].
  destruct (step_queue_bound c s1 s2 Hb H12) as [Hc Hb2].
  destruct (IH Hb2) as [? ?]. split; [congruence|done].
Qed.

(** C5.  For a client built by [NewClient] and any state [s] it has
    reached, the queue's capacity is still twice the batch size fixed at
    construction (the configured one, or 100 when that is not positive),
    and [Log] is always enabled and returns a state (it has no error
    result, does not wait and does not panic): with room in the queue the
    record is appended at the end of the queue and nothing is printed; with
    the queue full the queue is left as it is and the queue-full
    diagnostic, carrying the message, is added to what has been printed.
    In both cases everything else in the client's state is as before. *)
Theorem Log_nonblocking_bounded (config : Config) (c : Client)
    (s0 s : state) (timestamp : Z) (level message : string)
    (Hint : isInt (cfgBatchSize config))
    (Hnew : NewClient config = Some (c, s0))
    (Hreach : rtc (step c) s0 s) :
  queueCap s = 2 * BatchSize c ∧
  BatchSize c = (if bool_decide (cfgBatchSize config <= 0) then 100
                 else cfgBatchSize config) ∧
  len (queue s) <= queueCap s ∧
  ∃ s', exec c (ActLog timestamp level message) s = Some s' ∧
        queueCap s' = queueCap s ∧ doneClosed s' = doneClosed s ∧
        batch s' = batch s ∧ running s' = running s ∧ sent s' = sent s ∧
        ((len (queue s) < queueCap s ∧
          queue s' = queue s ++ [mkEntry timestamp message level] ∧
          printed s' = printed s) ∨
         (len (queue s) = queueCap s ∧
          queue s' = queue s ∧
          printed s' = printed s ++ [QueueFull message])).
Proof.
  destruct (NewClient_queue config c s0 Hint Hnew) as (Hq0 & Hcap0 & Hpos).
  assert (len (queue s0) <= queueCap s0) as Hb0.
  { rewrite Hq0, Hcap0. unfold len. simpl. lia. }
  destruct (steps_queue_bound c s0 s Hb0 Hreach) as [Hcap Hb].
  split_and!.
  - congruence.
  - by eapply NewClient_BatchSize.
  - done.
  - simpl. eexists. split; [done|]. unfold Log.
    case_bool_decide; simpl; (split_and!; [done..|]); [left|right];
      (split_and!; [lia|done|done]).
Qed.

Definition sampleConfig : Config :=
  {| cfgURL := "http://loki:3100/loki/api/v1/push"; cfgBatchSize := 1;
     cfgBatchWait := 0; cfgLabels := ∅; cfgHTTPClient := None |}.

Definition sampleActions : list action :=
  [ActLog 1 "info" "a"; ActLog 2 "info" "b"].

Lemma run_steps c acts s s' : run c acts s = Some s' → rtc (step c) s s'.
Proof.
  revert s. induction acts as [|a acts IH]; intros s; simpl.
  - intros [= <-]. apply rtc_refl.
  - destruct (exec c a s) as [s1|] eqn:Hex; [|done]. simpl. intros Hrun.
    eapply rtc_l; [by exists a|]. by apply IH.
Qed.

(** What [NewClient sampleConfig] returns, and the state after
    [sampleActions]: a full queue. *)
Definition sampleBuilt : Client * state :=
  ({| URL := "http://loki:3100/loki/api/v1/push"; BatchSize := 1;
      BatchWait := 1000000000; Labels := ∅;
      HTTPClient := {| Timeout := 5000000000 |} |},
   mkState [] 2 false [] true [] []).

Definition sampleFull : state :=
  mkState [mkEntry 1 "a" "info"; mkEntry 2 "b" "info"] 2 false [] true [] [].

Lemma Log_nonblocking_bounded_witness :
  queueCap sampleFull = 2 * BatchSize sampleBuilt.1 ∧
  BatchSize sampleBuilt.1 = 1 ∧
  len (queue sampleFull) <= queueCap sampleFull ∧
  ∃ s', exec sampleBuilt.1 (ActLog 3 "info" "dropped") sampleFull = Some s' ∧
        queueCap s' = queueCap sampleFull ∧
        doneClosed s' = doneClosed sampleFull ∧
        batch s' = batch sampleFull ∧ running s' = running sampleFull ∧
        sent s' = sent sampleFull ∧
        ((len (queue sampleFull) < queueCap sampleFull ∧
          queue s' = queue sampleFull ++ [mkEntry 3 "dropped" "info"] ∧
          printed s' = printed sampleFull) ∨
         (len (queue sampleFull) = queueCap sampleFull ∧
          queue s' = queue sampleFull ∧
          printed s' = printed sampleFull ++ [QueueFull "dropped"])).
Proof.
  apply (Log_nonblocking_bounded sampleConfig sampleBuilt.1 sampleBuilt.2
           sampleFull 3 "info" "dropped").
  - vm_compute. split; [discriminate|reflexivity].
  - reflexivity.
  - apply (run_steps sampleBuilt.1 sampleActions). reflexivity.
Defined.

Example Log_full_queue_drops :
  queue (Log 3 "info" "dropped" sampleFull) = queue sampleFull ∧
  printed (Log 3 "info" "dropped" sampleFull) = [QueueFull "dropped"].
Proof. split; reflexivity. Qed.

(** ** Further properties of the client *)

(** [time.NewTicker(d)], the first statement of [processQueue]: it panics
    on a non-positive interval. *)
Definition NewTicker (d : Z) : option Z :=
  if bool_decide (d <= 0) then None else Some d.

(** Every record the client still holds or has handed to [sendBatch], in
    the order of their way through it: the batches sent, then the current
    batch, then the queue.  The batch is a local variable of
    [processQueue]: it exists only while the worker runs. *)
Definition pending (s : state) : list entry :=
  mjoin (sent s) ++ (if running s then batch s else []) ++ queue s.

(** The records a schedule passes to [Log], in call order. *)
Fixpoint logged (acts : list action) : list entry :=
  match acts with
  | [] => []
  | ActLog timestamp level message :: acts' =>
      mkEntry timestamp message level :: logged acts'
  | _ :: acts' => logged acts'
  end.

(** A producer logging the records [es] one after the other. *)
Definition logAll (es : list entry) (s : state) : state :=
  fold_left (λ s e, Log (Timestamp e) (Level e) (Message e) s) es s.

(** The worker taking the entry case [n] times and then the tick case. *)
Definition drainSchedule (n : nat) : list action :=
  replicate n (ActWorker CaseEntry) ++ [ActWorker CaseTick].

(** The defaults of [NewClient]: whatever the configuration, a client that
    was built has a positive batch size and a positive batch wait, so that
    the ticker of its worker can be created; positive configured values
    are kept, non-positive ones replaced by 100 and one second; a missing
    HTTP client is replaced by one with a five-second timeout; and the
    client starts with an empty queue, an empty batch, nothing sent, an
    open [done] channel and a running worker. *)
Theorem NewClient_defaults (config : Config) (c : Client) (s : state)
    (Hnew : NewClient config = Some (c, s)) :
  0 < BatchSize c ∧ 0 < BatchWait c ∧
  NewTicker (BatchWait c) = Some (BatchWait c) ∧
  (0 < cfgBatchSize config → BatchSize c = cfgBatchSize config) ∧
  (cfgBatchSize config <= 0 → BatchSize c = 100) ∧
  (0 < cfgBatchWait config → BatchWait c = cfgBatchWait config) ∧
  (cfgBatchWait config <= 0 → BatchWait c = 1000000000) ∧
  HTTPClient c = default {| Timeout := 5000000000 |} (cfgHTTPClient config) ∧
  URL c = cfgURL config ∧ Labels c = cfgLabels config ∧
  queue s = [] ∧ batch s = [] ∧ sent s = [] ∧ printed s = [] ∧
  running s = true ∧ doneClosed s = false.
Proof.
  unfold NewClient in Hnew.
  destruct (makeChan _) as [cap|]; [|done]. injection Hnew as <- <-.
  simpl. unfold NewTicker.
  repeat case_bool_decide; split_and!; try done; try lia.
  all: by destruct (cfgHTTPClient config).
Qed.

Lemma NewClient_defaults_witness :
  0 < BatchSize sampleBuilt.1 ∧ 0 < BatchWait sampleBuilt.1 ∧
  NewTicker (BatchWait sampleBuilt.1) = Some (BatchWait sampleBuilt.1) ∧
  (0 < cfgBatchSize sampleConfig →
     BatchSize sampleBuilt.1 = cfgBatchSize sampleConfig) ∧
  (cfgBatchSize sampleConfig <= 0 → BatchSize sampleBuilt.1 = 100) ∧
  (0 < cfgBatchWait sampleConfig →
     BatchWait sampleBuilt.1 = cfgBatchWait sampleConfig) ∧
  (cfgBatchWait sampleConfig <= 0 → BatchWait sampleBuilt.1 = 1000000000) ∧
  HTTPClient sampleBuilt.1 =
    default {| Timeout := 5000000000 |} (cfgHTTPClient sampleConfig) ∧
  URL sampleBuilt.1 = cfgURL sampleConfig ∧
  Labels sampleBuilt.1 = cfgLabels sampleConfig ∧
  queue sampleBuilt.2 = [] ∧ batch sampleBuilt.2 = [] ∧
  sent sampleBuilt.2 = [] ∧ printed sampleBuilt.2 = [] ∧
  running sampleBuilt.2 = true ∧ doneClosed sampleBuilt.2 = false.
Proof.
  apply (NewClient_defaults sampleConfig sampleBuilt.1 sampleBuilt.2).
  reflexivity.
Defined.

(** [Stop] is not idempotent: once it has succeeded, every later [Stop]
    panics, whatever the client has done in between. *)
Theorem Stop_twice_panics (c : Client) (s0 s1 s : state)
    (Hstop : Stop s0 = Some s1) (Hlater : rtc (step c) s1 s) :
  Stop s = None ∧ exec c ActStop s = None.
Proof.
  assert (doneClosed s = true) as Hd.
  { apply (steps_doneClosed c s1); [|done].
    unfold Stop in Hstop. destruct (doneClosed s0); [done|].
    by injection Hstop as <-. }
  simpl. unfold Stop. by rewrite Hd.
Qed.

Lemma Stop_twice_panics_witness :
  Stop (Log 3 "info" "late"
          (mkState [mkEntry 2 "b" "info"] 4 true [mkEntry 1 "a" "info"] true
                   [] [])) = None ∧
  exec sampleClient ActStop
    (Log 3 "info" "late"
       (mkState [mkEntry 2 "b" "info"] 4 true [mkEntry 1 "a" "info"] true
                [] [])) = None.
Proof.
  apply (Stop_twice_panics sampleClient sampleState
           (mkState [mkEntry 2 "b" "info"] 4 true [mkEntry 1 "a" "info"] true
                    [] [])).
  - reflexivity.
  - apply rtc_once. by exists (ActLog 3 "info" "late").
Defined.

(** The size of the batches. *)
Definition batchesBounded (c : Client) (s : state) : Prop :=
  len (batch s) < BatchSize c ∧
  Forall (λ b, 0 < len b <= BatchSize c) (sent s).

Lemma step_batchesBounded c s s' :
  0 < BatchSize c → batchesBounded c s → step c s s' → batchesBounded c s'.
Proof.
  unfold batchesBounded. intros Hpos [Hb Hsent] [[ts level message| |k] Hex];
    simpl in Hex.
  - injection Hex as <-. unfold Log. by case_bool_decide.
  - unfold Stop in Hex. destruct (doneClosed s); [done|].
    by injection Hex as <-.
  - unfold processQueue in Hex. destruct (running s); [|done].
    destruct k.
    + destruct (doneClosed s); [|done]. injection Hex as <-.
      case_bool_decide; simpl; [|done]. split; [done|].
      apply Forall_app. split; [done|]. apply Forall_singleton. lia.
    + destruct (queue s) as [|e q]; [done|]. injection Hex as <-.
      assert (len (batch s ++ [e]) = len (batch s) + 1) as Hlen
        by (unfold len; rewrite length_app; simpl; lia).
      case_bool_decide as Hfull; simpl in *.
      * split; [unfold len; simpl; lia|].
        apply Forall_app. split; [done|]. apply Forall_singleton.
        unfold len in *. lia.
      * split; [lia|done].
    + injection Hex as <-. case_bool_decide; simpl; [|done].
      split; [unfold len; simpl; lia|].
      apply Forall_app. split; [done|]. apply Forall_singleton. lia.
Qed.

(** In every state a client built by [NewClient] can reach, the current
    batch is shorter than the batch size, and every batch handed to
    [sendBatch] so far was non-empty and no longer than the batch size:
    the worker never sends an empty or an oversized batch. *)
Theorem batches_bounded (config : Config) (c : Client) (s0 s : state)
    (Hnew : NewClient config = Some (c, s0))
    (Hreach : rtc (step c) s0 s) :
  len (batch s) < BatchSize c ∧
  Forall (λ b, 0 < len b <= BatchSize c) (sent s).
Proof.
  assert (0 < BatchSize c ∧ batchesBounded c s0) as [Hpos Hinv].
  { unfold NewClient in Hnew.
    destruct (makeChan _) as [cap|]; [|done]. injection Hnew as <- <-.
    unfold batchesBounded. simpl.
    case_bool_decide; (split_and!; [lia|unfold len; simpl; lia|done]). }
  clear Hnew. induction Hreach as [s|s1 s2 s3 H12 _ IH]; [done|].
  apply IH. by eapply step_batchesBounded.
Qed.

(** A client with batch size 2, a schedule in which its worker sends a
    full batch on size and a short one on a tick, and the state that
    schedule leads to. *)
Definition busyConfig : Config :=
  {| cfgURL := "http://loki:3100/loki/api/v1/push"; cfgBatchSize := 2;
     cfgBatchWait := 0; cfgLabels := ∅; cfgHTTPClient := None |}.

Definition busyBuilt : Client * state :=
  ({| URL := "http://loki:3100/loki/api/v1/push"; BatchSize := 2;
      BatchWait := 1000000000; Labels := ∅;
      HTTPClient := {| Timeout := 5000000000 |} |},
   mkState [] 4 false [] true [] []).

Definition busyActions : list action :=
  [ActLog 1 "info" "a"; ActLog 2 "warn" "b";
   ActWorker CaseEntry; ActWorker CaseEntry;
   ActLog 3 "info" "c"; ActWorker CaseEntry; ActWorker CaseTick;
   ActLog 4 "error" "d"; ActWorker CaseEntry].

Definition busyState : state :=
  mkState [] 4 false [mkEntry 4 "d" "error"] true
          [[mkEntry 1 "a" "info"; mkEntry 2 "b" "warn"];
           [mkEntry 3 "c" "info"]] [].

Lemma batches_bounded_witness :
  len (batch busyState) < BatchSize busyBuilt.1 ∧
  Forall (λ b, 0 < len b <= BatchSize busyBuilt.1) (sent busyState).
Proof.
  apply (batches_bounded busyConfig busyBuilt.1 busyBuilt.2 busyState).
  - reflexivity.
  - apply (run_steps busyBuilt.1 busyActions). reflexivity.
Defined.

(** *** Nothing is lost, duplicated or reordered inside the client *)

Lemma pending_worker c k s s' :
  processQueue c k s = Some s' →
  pending s' = pending s ∧ printed s' = printed s.
Proof.
  unfold processQueue, pending. destruct (running s) eqn:Hrun; [|done].
  destruct k.
  - destruct (doneClosed s); [|done]. intros [= <-].
    case_bool_decide as Hb; simpl.
    + split; [|done]. rewrite join_app. simpl.
      by rewrite app_nil_r, <- (assoc_L (++)).
    + split; [|done]. rewrite len_pos_nonempty in Hb.
      apply dec_stable in Hb. by rewrite Hb.
  - destruct (queue s) as [|e q]; [done|]. intros [= <-].
    case_bool_decide; simpl; rewrite Hrun; (split; [|done]).
    + rewrite join_app. simpl.
      by rewrite app_nil_r, <- !(assoc_L (++)).
    + by rewrite <- !(assoc_L (++)).
  - intros [= <-]. case_bool_decide; simpl; rewrite Hrun; [|done].
    split; [|done]. rewrite join_app. simpl.
    by rewrite app_nil_r, <- (assoc_L (++)).
Qed.

Lemma pending_Stop s s' :
  Stop s = Some s' → pending s' = pending s ∧ printed s' = printed s.
Proof.
  unfold Stop. destruct (doneClosed s); [done|]. by intros [= <-].
Qed.

Lemma pending_Log timestamp level message s :
  (pending (Log timestamp level message s) =
     pending s ++ [mkEntry timestamp message level] ∧
   printed (Log timestamp level message s) = printed s) ∨
  (pending (Log timestamp level message s) = pending s ∧
   printed (Log timestamp level message s) =
     printed s ++ [QueueFull message]).
Proof.
  unfold Log, pending. case_bool_decide; simpl; [left|right]; [|done].
  by rewrite !(assoc_L (++)).
Qed.

(** Along any schedule, the records passed to [Log] split, each keeping
    its call order, into those accepted and those dropped: the accepted
    ones are appended, in that order, to the records the client holds or
    has sent, and for each dropped one the queue-full diagnostic is
    printed.  Between [Log] and [sendBatch] the client neither loses nor
    duplicates nor reorders a record. *)
Theorem records_conserved (c : Client) (acts : list action)
    (s0 s : state) (Hrun : run c acts s0 = Some s) :
  ∃ accepted dropped : list entry,
    pending s = pending s0 ++ accepted ∧
    printed s = printed s0 ++ map (λ e, QueueFull (Message e)) dropped ∧
    accepted `sublist_of` logged acts ∧
    dropped `sublist_of` logged acts ∧
    logged acts ≡ₚ accepted ++ dropped.
Proof.
  revert s0 Hrun. induction acts as [|a acts IH]; intros s0 Hrun.
  - injection Hrun as <-. exists [], []. by rewrite !app_nil_r.
  - simpl in Hrun. destruct (exec c a s0) as [s1|] eqn:Hex; [|done].
    simpl in Hrun. destruct (IH s1 Hrun) as
      (accepted & dropped & Hp & Hd & Hsa & Hsd & Hperm).
    destruct a as [timestamp level message| |k]; simpl in Hex.
    + injection Hex as <-.
      destruct (pending_Log timestamp level message s0) as [[Hp1 Hd1]|[Hp1 Hd1]].
      * exists (mkEntry timestamp message level :: accepted), dropped.
        rewrite Hp, Hp1, Hd, Hd1, <- (assoc_L (++)). simpl.
        split_and!; [done|done|by apply sublist_skip|by apply sublist_cons|].
        by constructor.
      * exists accepted, (mkEntry timestamp message level :: dropped).
        rewrite Hp, Hp1, Hd, Hd1, <- (assoc_L (++)). simpl.
        split_and!; [done|done|by apply sublist_cons|by apply sublist_skip|].
        rewrite <- Permutation_middle. by constructor.
    + apply pending_Stop in Hex as [<- <-]. by exists accepted, dropped.
    + apply pending_worker in Hex as [<- <-]. by exists accepted, dropped.
Qed.

Lemma records_conserved_witness :
  ∃ accepted dropped : list entry,
    pending sampleFull = pending sampleBuilt.2 ++ accepted ∧
    printed sampleFull =
      printed sampleBuilt.2 ++ map (λ e, QueueFull (Message e)) dropped ∧
    accepted `sublist_of` logged sampleActions ∧
    dropped `sublist_of` logged sampleActions ∧
    logged sampleActions ≡ₚ accepted ++ dropped.
Proof.
  apply (records_conserved sampleBuilt.1 sampleActions sampleBuilt.2
           sampleFull).
  reflexivity.
Defined.

(** *** After the worker has returned *)

Lemma step_returned c s s' :
  running s = false → step c s s' →
  running s' = false ∧ sent s' = sent s ∧ queue s `prefix_of` queue s'.
Proof.
  intros Hr [[ts level message| |k] Hex]; simpl in Hex.
  - injection Hex as <-. unfold Log.
    case_bool_decide; simpl; (split_and!; [done|done|]); [|done].
    by apply prefix_app_r.
  - unfold Stop in Hex. destruct (doneClosed s); [done|].
    by injection Hex as <-.
  - unfold processQueue in Hex. by rewrite Hr in Hex.
Qed.

(** [Stop] does not drain the queue.  Once the worker has returned, no
    record is sent any more: whatever happens afterwards, the calls of
    [sendBatch] stay as they were and the records that were in the queue
    stay at its head, while later calls of [Log] can only pile records up
    behind them. *)
Theorem queue_abandoned_after_return (c : Client) (s s' : state)
    (Hret : running s = false) (Hlater : rtc (step c) s s') :
  running s' = false ∧ sent s' = sent s ∧ queue s `prefix_of` queue s'.
Proof.
  induction Hlater as [s|s1 s2 s3 H12 _ IH]; [done|].
  destruct (step_returned c s1 s2 Hret H12) as (Hr2 & Hs2 & Hq2).
  destruct (IH Hr2) as (? & ? & ?). split_and!; [done|congruence|].
  by etrans.
Qed.

Lemma queue_abandoned_after_return_witness :
  running (Log 3 "info" "late"
             (mkState [mkEntry 2 "b" "info"] 4 true [] false
                      [[mkEntry 1 "a" "info"]] [])) = false ∧
  sent (Log 3 "info" "late"
          (mkState [mkEntry 2 "b" "info"] 4 true [] false
                   [[mkEntry 1 "a" "info"]] [])) = [[mkEntry 1 "a" "info"]] ∧
  [mkEntry 2 "b" "info"] `prefix_of`
    queue (Log 3 "info" "late"
             (mkState [mkEntry 2 "b" "info"] 4 true [] false
                      [[mkEntry 1 "a" "info"]] [])).
Proof.
  apply (queue_abandoned_after_return sampleClient
           (mkState [mkEntry 2 "b" "info"] 4 true [] false
                    [[mkEntry 1 "a" "info"]] [])).
  - reflexivity.
  - apply rtc_once. by exists (ActLog 3 "info" "late").
Defined.

(** *** Draining and bursts *)

Lemma run_app c acts1 acts2 s :
  run c (acts1 ++ acts2) s = s1 ← run c acts1 s; run c acts2 s1.
Proof.
  revert s. induction acts1 as [|a acts1 IH]; intros s; [done|].
  simpl. destruct (exec c a s) as [s1|]; [|done]. simpl. apply IH.
Qed.

Lemma run_entries c q :
  ∀ s, running s = true → queue s = q →
  ∃ s', run c (replicate (length q) (ActWorker CaseEntry)) s = Some s' ∧
        running s' = true ∧ queue s' = [] ∧ pending s' = pending s.
Proof.
  induction q as [|e q IH]; intros s Hrun Hq.
  - exists s. by rewrite Hq.
  - cbn [length replicate run exec].
    destruct (processQueue c CaseEntry s) as [s1|] eqn:Hstep.
    + pose proof (pending_worker c CaseEntry s s1 Hstep) as [Hp _].
      unfold processQueue in Hstep. rewrite Hrun, Hq in Hstep.
      injection Hstep as Hs1.
      destruct (IH s1) as (s' & Hrun' & Hr' & Hq' & Hp').
      * rewrite <- Hs1. by case_bool_decide.
      * rewrite <- Hs1. by case_bool_decide.
      * exists s'. simpl. split_and!; [done|done|done|congruence].
    + unfold processQueue in Hstep. by rewrite Hrun, Hq in Hstep.
Qed.

(** A running worker can always catch up: taking the entry case once for
    each queued record and then one tick is an enabled schedule, and it
    leaves the queue and the batch empty with every record that was in
    the batch or the queue handed to [sendBatch], in order, after those
    sent before. *)
Theorem worker_drains (c : Client) (s : state) (Hrun : running s = true) :
  ∃ s', run c (drainSchedule (length (queue s))) s = Some s' ∧
        running s' = true ∧ queue s' = [] ∧ batch s' = [] ∧
        mjoin (sent s') = mjoin (sent s) ++ batch s ++ queue s.
Proof.
  destruct (run_entries c (queue s) s Hrun eq_refl)
    as (s1 & Hrun1 & Hr1 & Hq1 & Hp1).
  unfold drainSchedule. rewrite run_app, Hrun1. simpl.
  destruct (processQueue c CaseTick s1) as [s2|] eqn:Hstep;
    [|unfold processQueue in Hstep; by rewrite Hr1 in Hstep].
  pose proof (pending_worker c CaseTick s1 s2 Hstep) as [Hp2 _].
  unfold processQueue in Hstep. rewrite Hr1 in Hstep.
  injection Hstep as Hs2. exists s2. simpl.
  assert (running s2 = true ∧ queue s2 = [] ∧ batch s2 = [])
    as (Hr2 & Hq2 & Hb2).
  { rewrite <- Hs2. case_bool_decide as Hb; simpl; [done|].
    rewrite len_pos_nonempty in Hb. by apply dec_stable in Hb. }
  split_and!; try done.
  rewrite Hp1 in Hp2. unfold pending in Hp2.
  by rewrite Hr2, Hq2, Hb2, Hrun, !app_nil_r in Hp2.
Qed.

Lemma worker_drains_witness :
  ∃ s', run sampleClient (drainSchedule (length (queue sampleFull)))
            sampleFull = Some s' ∧
        running s' = true ∧ queue s' = [] ∧ batch s' = [] ∧
        mjoin (sent s') =
          mjoin (sent sampleFull) ++ batch sampleFull ++ queue sampleFull.
Proof.
  apply (worker_drains sampleClient sampleFull). reflexivity.
Defined.

Lemma Log_entry e s :
  Log (Timestamp e) (Level e) (Message e) s =
  if bool_decide (len (queue s) < queueCap s)
  then withQueue (queue s ++ [e]) s
  else withPrinted (QueueFull (Message e)) s.
Proof. unfold Log. by destruct e. Qed.

Lemma logAll_cons e es s :
  logAll (e :: es) s = logAll es (Log (Timestamp e) (Level e) (Message e) s).
Proof. reflexivity. Qed.

(** A burst of [Log] calls with no worker iteration in between fills the
    queue in call order up to its capacity and drops every later record:
    the queue gains the first records that fit, and the queue-full
    diagnostic is printed, in call order, for each of the others. *)
Theorem Log_burst (es : list entry) (s : state) :
  let room := Z.to_nat (queueCap s - len (queue s)) in
  queue (logAll es s) = queue s ++ take room es ∧
  printed (logAll es s) =
    printed s ++ map (λ e, QueueFull (Message e)) (drop room es) ∧
  queueCap (logAll es s) = queueCap s ∧
  sent (logAll es s) = sent s ∧ batch (logAll es s) = batch s.
Proof.
  revert s. induction es as [|e es IH]; intros s room.
  - subst room. simpl. by rewrite take_nil, drop_nil, !app_nil_r.
  - rewrite logAll_cons, Log_entry.
    case_bool_decide as Hroom.
    + destruct (IH (withQueue (queue s ++ [e]) s))
        as (Hq & Hp & Hc & Hs & Hb).
      simpl in Hq, Hp, Hc, Hs, Hb.
      assert (len (queue s ++ [e]) = len (queue s) + 1) as Hlen
        by (unfold len; rewrite length_app; simpl; lia).
      rewrite Hlen in Hq, Hp.
      assert (room = S (Z.to_nat (queueCap s - (len (queue s) + 1))))
        as -> by (subst room; lia).
      cbn [take drop]. split_and!; try done.
      by rewrite Hq, <- (assoc_L (++)).
    + destruct (IH (withPrinted (QueueFull (Message e)) s))
        as (Hq & Hp & Hc & Hs & Hb).
      simpl in Hq, Hp, Hc, Hs, Hb.
      assert (room = 0%nat) as -> by (subst room; lia).
      assert (Z.to_nat (queueCap s - len (queue s)) = 0%nat) as Hz by lia.
      rewrite Hz in Hq, Hp. rewrite take_0 in *. rewrite drop_0 in *.
      split_and!; try done.
      by rewrite Hp, <- (assoc_L (++)).
Qed.


End Loki.

(** * The delivery adapter: [lokiWriter] of the zap-based [logger] package *)

Module ZapLogger.

(** [strings.HasPrefix(s, prefix)] *)
Fixpoint hasPrefix (s pre : string) {struct pre} : bool :=
  match pre with
  | EmptyString => true
  | String a pre' =>
      match s with
      | EmptyString => false
      | String b s' => if decide (a = b) then hasPrefix s' pre' else false
      end
  end.

(** [strings.Contains(s, substr)]: [substr] is a prefix of some suffix of
    [s]. *)
Fixpoint contains (s substr : string) : bool :=
  if hasPrefix s substr then true
  else match s with
       | EmptyString => false
       | String _ s' => contains s' substr
       end.

(** [len(p)] of a byte slice. *)
Definition lenBytes (p : string) : Z := Z.of_nat (String.length p).

(** The [switch] of [lokiWriter.Write].  The variable the source calls
    [lowered] is [string(p)] itself: nothing is lower-cased. *)
Definition inferLevel (p : string) : string :=
  let level := "info" in
  if bool_decide (lenBytes p > 0) then
    let lowered := p in
    if contains lowered "debug" then "debug"
    else if contains lowered "info" then "info"
    else if contains lowered "warn" then "warn"
    else if contains lowered "error" then "error"
    else if contains lowered "fatal" then "fatal"
    else level
  else level.

(** [lokiWriter.Write], with [now] the instant [time.Now()] returns; the
    result is [(n, err)] with [err] always nil. *)
Definition Write (now : Z) (p : string) (s : Loki.state)
  : Loki.state * (Z * option string) :=
  let level := inferLevel p in
  (Loki.Log now level p s, (lenBytes p, None)).

(** The five keywords in the order of the [switch]. *)
Definition keywords : list string :=
  ["debug"; "info"; "warn"; "error"; "fatal"].

(** [sub] occurs in [s] as a literal substring. *)
Definition occurs (sub s : string) : Prop :=
  ∃ pre post : string, s = pre +:+ sub +:+ post.

Lemma hasPrefix_occurs pre s :
  hasPrefix s pre = true ↔ ∃ post, s = pre +:+ post.
Proof.
  revert s. induction pre as [|a pre IH]; intros s; simpl.
  - split; [|done]. intros _. by exists s.
  - destruct s as [|b s]; simpl.
    + split; [done|]. by intros [post ?].
    + destruct (decide (a = b)) as [->|Hne].
      * rewrite IH. split; intros [post Hp]; exists post.
        -- by rewrite append_cons, Hp.
        -- rewrite append_cons in Hp. by injection Hp.
      * split; [done|]. intros [post Hp]. rewrite append_cons in Hp.
        by injection Hp.
Qed.

Lemma contains_occurs s sub : contains s sub = true ↔ occurs sub s.
Proof.
  unfold occurs. induction s as [|b s IH]; simpl.
  - destruct (hasPrefix "" sub) eqn:Hp.
    + split; [|done]. intros _. apply hasPrefix_occurs in Hp as [post Hp].
      by exists "", post.
    + split; [done|]. intros ([|? pre] & post & Hs).
      * rewrite append_nil in Hs.
        assert (hasPrefix "" sub = true) as Ht
          by (apply hasPrefix_occurs; eauto).
        congruence.
      * by rewrite append_cons in Hs.
  - destruct (hasPrefix (String b s) sub) eqn:Hp.
    + split; [|done]. intros _. apply hasPrefix_occurs in Hp as [post Hp].
      by exists "", post.
    + rewrite IH. split.
      * intros (pre & post & ->). by exists (String b pre), post.
      * intros ([|a pre] & post & Hs).
        -- rewrite append_nil in Hs.
           assert (hasPrefix (String b s) sub = true) as Ht
             by (apply hasPrefix_occurs; eauto).
           congruence.
        -- rewrite append_cons in Hs. injection Hs as -> ->. eauto.
Qed.

Lemma contains_not_occurs s sub : contains s sub = false ↔ ¬ occurs sub s.
Proof. rewrite <- contains_occurs. by destruct (contains s sub). Qed.

Lemma occurs_nonempty sub s : sub ≠ "" → occurs sub s → lenBytes s > 0.
Proof.
  intros Hne (pre & post & ->). unfold lenBytes.
  induction pre as [|a pre IH].
  - rewrite append_nil. destruct sub; [done|].
    rewrite append_cons. simpl. lia.
  - rewrite append_cons. simpl. lia.
Qed.

(** What [inferLevel] returns once the outcome of the five tests is
    known. *)
Lemma inferLevel_unfold p :
  inferLevel p =
    if contains p "debug" then "debug"
    else if contains p "info" then "info"
    else if contains p "warn" then "warn"
    else if contains p "error" then "error"
    else if contains p "fatal" then "fatal"
    else "info".
Proof.
  unfold inferLevel. case_bool_decide as Hlen; [done|].
  assert (∀ k, k ≠ "" → contains p k = false) as Hno.
  { intros k Hk. apply contains_not_occurs. intros Hocc.
    apply Hlen. by eapply occurs_nonempty. }
  by rewrite !Hno.
Qed.

(** C6.  [lokiWriter.Write] enqueues the rendered line through
    [Client.Log] with the severity inferred as follows: the first of
    "debug", "info", "warn", "error", "fatal", in that order, that occurs
    in the line as a literal substring; "info" when none of the five
    occurs, in particular for the empty line.  A line in which both
    "debug" and "error" occur is given "debug". *)
Theorem Write_infers_severity (now : Z) (p : string) (s : Loki.state) :
  Write now p s = (Loki.Log now (inferLevel p) p s, (lenBytes p, None)) ∧
  (∀ (i : nat) (k : string),
     keywords !! i = Some k → occurs k p →
     (∀ (j : nat) (k' : string),
        (j < i)%nat → keywords !! j = Some k' → ¬ occurs k' p) →
     inferLevel p = k) ∧
  ((∀ k, k ∈ keywords → ¬ occurs k p) → inferLevel p = "info") ∧
  inferLevel "" = "info" ∧
  (occurs "debug" p → occurs "error" p → inferLevel p = "debug").
Proof.
  split_and!.
  - done.
  - intros i k Hk Hocc Hfirst. rewrite inferLevel_unfold.
    apply contains_occurs in Hocc.
    assert (∀ (j : nat) k', (j < i)%nat → keywords !! j = Some k' →
                            contains p k' = false) as Hno.
    { intros j k' Hj Hk'. apply contains_not_occurs. eauto. }
    do 5 (destruct i as [|i];
          [injection Hk as <-;
           rewrite ?(Hno 0%nat "debug"), ?(Hno 1%nat "info"),
             ?(Hno 2%nat "warn"), ?(Hno 3%nat "error") by (done || lia);
           by rewrite Hocc|]).
    done.
  - intros Hnone. rewrite inferLevel_unfold.
    assert (∀ k, k ∈ keywords → contains p k = false) as Hno.
    { intros k Hk. apply contains_not_occurs. eauto. }
    rewrite !Hno; [done|unfold keywords; set_solver..].
  - reflexivity.
  - intros Hd _. rewrite inferLevel_unfold.
    apply contains_occurs in Hd. by rewrite Hd.
Qed.

Example inferLevel_debug_and_error :
  inferLevel "2024-01-01T00:00:00Z error debug mode failed" = "debug".
Proof. reflexivity. Qed.

Example inferLevel_upper_case : inferLevel "ERROR: disk full" = "info".
Proof. reflexivity. Qed.

(** ** Further properties of the adapter *)

(** A string without a lower-case ASCII letter. *)
Fixpoint lowerFree (s : string) : bool :=
  match s with
  | EmptyString => true
  | String ch s' =>
      negb ((97 <=? N_of_ascii ch) && (N_of_ascii ch <=? 122))%N
      && lowerFree s'
  end.

Lemma lowerFree_append s t :
  lowerFree (s +:+ t) = lowerFree s && lowerFree t.
Proof.
  induction s as [|ch s IH]; [done|].
  rewrite append_cons. simpl. by rewrite IH, andb_assoc.
Qed.

Lemma lowerFree_occurs sub s :
  lowerFree s = true → occurs sub s → lowerFree sub = true.
Proof.
  intros Hs (pre & post & ->).
  rewrite !lowerFree_append in Hs.
  by apply andb_true_iff in Hs as [_ [? _]%andb_true_iff].
Qed.

(** The inferred severity is always one of the five keywords, and the
    scan is case-sensitive: the text is searched as it is (the variable
    named [lowered] is not lower-cased), so a line without any lower-case
    letter, such as one whose level is printed in capitals, is always
    given "info". *)
Theorem inferLevel_case_sensitive (p : string) :
  inferLevel p ∈ keywords ∧
  (lowerFree p = true → inferLevel p = "info").
Proof.
  split.
  - rewrite inferLevel_unfold. unfold keywords.
    repeat (case_match; [set_solver|]). set_solver.
  - intros Hfree. rewrite inferLevel_unfold.
    assert (∀ k, lowerFree k = false → contains p k = false) as Hno.
    { intros k Hk. apply contains_not_occurs. intros Hocc.
      apply (lowerFree_occurs k p Hfree) in Hocc. congruence. }
    by rewrite !Hno.
Qed.

(** *** Building and closing the logger *)

(** The [zapcore.Level]s that [parseLevel] returns. *)
Inductive zapLevel :=
  DebugLevel | InfoLevel | WarnLevel | ErrorLevel | FatalLevel.

Definition parseLevel (level : string) : zapLevel :=
  if decide (level = "debug") then DebugLevel
  else if decide (level = "info") then InfoLevel
  else if decide (level = "warn") then WarnLevel
  else if decide (level = "error") then ErrorLevel
  else if decide (level = "fatal") then FatalLevel
  else InfoLevel.

(** [type LokiConfig struct] *)
Record LokiConfig := mkLokiConfig {
  Enabled : bool;
  URL : string;
  BatchSize : Z;
  BatchWait : Z;
  Labels : gmap string string
}.

(** [type Config struct]; the field [Loki] may be nil. *)
Record Config := mkConfig {
  Level : string;
  JSONOutput : bool;
  FilePath : string;
  Environment : string;
  LokiCfg : option LokiConfig
}.

Inductive encoder := JSONEncoder | ConsoleEncoder.

(** Where a core writes: [os.Stdout], a [lumberjack.Logger] with its
    rotation policy, or the [lokiWriter]. *)
Inductive writeSyncer :=
| Stdout
| Lumberjack (Filename : string) (MaxSize MaxBackups MaxAge : Z)
             (Compress : bool)
| LokiWriter.

(** [zapcore.NewCore(encoder, writer, level)] *)
Record core := mkCore {
  coreEncoder : encoder;
  coreWriter : writeSyncer;
  coreLevel : zapLevel
}.

(** [type Logger struct]: of the embedded [*zap.Logger], the cores it tees
    to and the fields and names added by [With] and [Named]; and the
    pointer to the Loki client, nil when there is none. *)
Record Logger := mkLogger {
  cores : list core;
  fields : list string;
  names : list string;
  lokiClient : option Loki.Client
}.

(** [New]: the primary core, then the Loki core when shipping is enabled
    with a non-empty URL.  The result carries the state of the client it
    has created, if any; [None] when [loki.NewClient] panics. *)
Definition New (config : Config) : option (Logger * option Loki.state) :=
  let encoder :=
    if JSONOutput config then JSONEncoder else ConsoleEncoder in
  let cores :=
    if decide (Environment config = "development")
    then [mkCore encoder Stdout (parseLevel (Level config))]
    else if decide (FilePath config ≠ "")
    then [mkCore encoder (Lumberjack (FilePath config) 100 5 30 true)
                 (parseLevel (Level config))]
    else [mkCore encoder Stdout (parseLevel (Level config))] in
  match LokiCfg config with
  | Some lk =>
      if Enabled lk && bool_decide (URL lk ≠ "") then
        match Loki.NewClient
                {| Loki.cfgURL := URL lk; Loki.cfgBatchSize := BatchSize lk;
                   Loki.cfgBatchWait := BatchWait lk;
                   Loki.cfgLabels := Labels lk;
                   Loki.cfgHTTPClient := None |} with
        | Some (client, st) =>
            Some ({| cores := cores ++
                       [mkCore encoder LokiWriter
                               (parseLevel (Level config))];
                     fields := []; names := [];
                     lokiClient := Some client |}, Some st)
        | None => None
        end
      else Some ({| cores := cores; fields := []; names := [];
                    lokiClient := None |}, None)
  | None => Some ({| cores := cores; fields := []; names := [];
                     lokiClient := None |}, None)
  end.

(** [With] and [Named]: a new [Logger] around the derived zap logger, with
    the same client pointer. *)
Definition With (l : Logger) (fs : list string) : Logger :=
  {| cores := cores l; fields := fields l ++ fs; names := names l;
     lokiClient := lokiClient l |}.

Definition Named (l : Logger) (name : string) : Logger :=
  {| cores := cores l; fields := fields l; names := names l ++ [name];
     lokiClient := lokiClient l |}.

(** [Close], as far as the Loki client goes: [st] is the state of the
    client [l] points to, untouched when [l] has none; [None] when [Stop]
    panics.  The error [Close] returns is that of zap's [Sync]. *)
Definition Close (l : Logger) (st : Loki.state) : option Loki.state :=
  match lokiClient l with
  | Some _ => Loki.Stop st
  | None => Some st
  end.

(** Shipping is switched on. *)
Definition shipping (config : Config) : bool :=
  match LokiCfg config with
  | Some lk => Enabled lk && bool_decide (URL lk ≠ "")
  | None => false
  end.

(** The writer of the local core. *)
Definition localWriter (config : Config) : writeSyncer :=
  if bool_decide (Environment config ≠ "development" ∧ FilePath config ≠ "")
  then Lumberjack (FilePath config) 100 5 30 true else Stdout.

Lemma localCores_eq config enc lvl :
  (if decide (Environment config = "development")
   then [mkCore enc Stdout lvl]
   else if decide (FilePath config ≠ "")
   then [mkCore enc (Lumberjack (FilePath config) 100 5 30 true) lvl]
   else [mkCore enc Stdout lvl]) =
  [mkCore enc (localWriter config) lvl].
Proof.
  unfold localWriter.
  destruct (decide (Environment config = "development")) as [Hdev|Hdev].
  - rewrite bool_decide_eq_false_2; [done|]. by intros [? _].
  - destruct (decide (FilePath config ≠ "")) as [Hfile|Hfile].
    + by rewrite bool_decide_eq_true_2.
    + rewrite bool_decide_eq_false_2; [done|]. by intros [_ ?].
Qed.

(** The sinks of a logger that [New] has built: exactly one local core,
    which writes to the rotating file when the environment is not
    "development" and a file path is configured, and to stdout otherwise
    (so in development a configured file path is ignored); after it the
    Loki core, present exactly when shipping is enabled with a non-empty
    URL, which is also exactly when the logger holds a client; and all
    cores share the encoder and the level parsed from the
    configuration. *)
Theorem New_cores (config : Config) (l : Logger) (st : option Loki.state)
    (Hnew : New config = Some (l, st)) :
  map coreWriter (cores l) =
    localWriter config :: (if shipping config then [LokiWriter] else []) ∧
  (is_Some (lokiClient l) ↔ shipping config = true) ∧
  (is_Some st ↔ shipping config = true) ∧
  Forall (λ k, coreLevel k = parseLevel (Level config) ∧
               coreEncoder k = (if JSONOutput config then JSONEncoder
                                else ConsoleEncoder)) (cores l) ∧
  fields l = [] ∧ names l = [].
Proof.
  unfold New in Hnew. rewrite localCores_eq in Hnew. unfold shipping.
  destruct (LokiCfg config) as [lk|].
  - destruct (Enabled lk && bool_decide (URL lk ≠ "")).
    + destruct (Loki.NewClient _) as [[client cst]|]; [|done].
      injection Hnew as <- <-. simpl.
      split_and!; [done|by split; eauto|by split; eauto
                  |by repeat constructor|done|done].
    + injection Hnew as <- <-. simpl.
      split_and!; [done|by split; [intros []|]|by split; [intros []|]
                  |by repeat constructor|done|done].
  - injection Hnew as <- <-. simpl.
    split_and!; [done|by split; [intros []|]|by split; [intros []|]
                |by repeat constructor|done|done].
Qed.

Definition sampleLoggerConfig : Config :=
  {| Level := "warn"; JSONOutput := true; FilePath := "/var/log/app.log";
     Environment := "production";
     LokiCfg := Some {| Enabled := true;
                        URL := "http://loki:3100/loki/api/v1/push";
                        BatchSize := 0; BatchWait := 0; Labels := ∅ |} |}.

Definition sampleLogger : Logger * option Loki.state :=
  ({| cores := [mkCore JSONEncoder
                       (Lumberjack "/var/log/app.log" 100 5 30 true)
                       WarnLevel;
                mkCore JSONEncoder LokiWriter WarnLevel];
      fields := []; names := [];
      lokiClient :=
        Some {| Loki.URL := "http://loki:3100/loki/api/v1/push";
                Loki.BatchSize := 100; Loki.BatchWait := 1000000000;
                Loki.Labels := ∅;
                Loki.HTTPClient := {| Loki.Timeout := 5000000000 |} |} |},
   Some (Loki.mkState [] 200 false [] true [] [])).

Lemma New_cores_witness :
  map coreWriter (cores sampleLogger.1) =
    localWriter sampleLoggerConfig ::
      (if shipping sampleLoggerConfig then [LokiWriter] else []) ∧
  (is_Some (lokiClient sampleLogger.1) ↔
     shipping sampleLoggerConfig = true) ∧
  (is_Some sampleLogger.2 ↔ shipping sampleLoggerConfig = true) ∧
  Forall (λ k, coreLevel k = parseLevel (Level sampleLoggerConfig) ∧
               coreEncoder k =
                 (if JSONOutput sampleLoggerConfig then JSONEncoder
                  else ConsoleEncoder)) (cores sampleLogger.1) ∧
  fields sampleLogger.1 = [] ∧ names sampleLogger.1 = [].
Proof.
  apply (New_cores sampleLoggerConfig sampleLogger.1 sampleLogger.2).
  reflexivity.
Defined.

(** [Close] is safe to call any number of times on a logger without a
    Loki client, but on a logger with one it can succeed only once for
    the whole family of loggers derived from it: [With] and [Named] copy
    the client pointer, so after one of them has been closed, closing the
    same logger again or any logger sharing the client panics. *)
Theorem Close_once_per_client (l : Logger) (st : Loki.state) :
  (lokiClient l = None → Close l st = Some st) ∧
  (is_Some (lokiClient l) →
   ∀ st1, Close l st = Some st1 →
     Close l st1 = None ∧
     (∀ fs, Close (With l fs) st1 = None) ∧
     (∀ name, Close (Named l name) st1 = None)).
Proof.
  unfold Close. split; [by intros ->|].
  intros [client Hclient] st1 Hstop. simpl. rewrite Hclient in *.
  unfold Loki.Stop in *. destruct (Loki.doneClosed st); [done|].
  by injection Hstop as <-.
Qed.

End ZapLogger.

(** * The context-bound request logger ([logger.Errorf] and friends) *)

Module CtxLogger.

(** The level constants [err], [debug] and [print] of the package. *)
Inductive LogLevel := err | debug | print.

(** Modelled from the spec: the package's [LogMessage] struct, declared
    outside the files at hand, "LogMessage {caller-location: text,
    severity: enum, message: text}", with the field names the source
    uses. *)
Record LogMessage := mkLogMessage {
  File : string;
  Level : LogLevel;
  Message : string
}.

(** Modelled from the spec: the keys of the store's slots ([_LogMessages],
    [RequestId], [_SaltKey]), constants declared outside the files at
    hand; all the source relies on is that they are distinct. *)
Inductive key := _LogMessages | RequestId | _SaltKey.

#[global] Instance key_eq_dec : EqDecision key.
Proof. solve_decision. Defined.

#[global] Instance key_countable : Countable key.
Proof.
  refine (inj_countable'
            (λ k, match k with
                  | _LogMessages => 0%nat | RequestId => 1%nat
                  | _SaltKey => 2%nat end)
            (λ n, match n with
                  | O => _LogMessages | S O => RequestId | _ => _SaltKey
                  end) _).
  by intros [].
Defined.

(** A Go [interface{}] as the store holds it: nil, a string, a
    [[]LogMessage], or a value of some other dynamic type. *)
Inductive any :=
| AnyNil
| AnyString (v : string)
| AnyMessages (ms : list LogMessage)
| AnyOther (tag : Z).

(** Modelled from the spec: the store bound to a context, a
    concurrency-safe slot set whose [Load], [LoadAndDelete] and [Set] are
    each one indivisible step ("atomic pop all (read-and-clear in one
    indivisible step)", "Get/Set ... same atomicity guarantee"). *)
Definition Load (k : key) (value : gmap key any) : option any :=
  value !! k.

Definition LoadAndDelete (k : key) (value : gmap key any)
  : option any * gmap key any :=
  (value !! k, delete k value).

Definition Set_ (k : key) (v : any) (value : gmap key any) : gmap key any :=
  <[k := v]> value.

(** A [context.Context] as the logger sees it: nil, a context without a
    store, or a context carrying (a pointer to) the store of the world. *)
Inductive context := NilCtx | Unbound | Bound.

(** The process and the request as the logger sees them: the environment
    variables, the store the bound context points to, and what has been
    printed on stdout. *)
Record world := mkWorld {
  env : string → string;
  store : gmap key any;
  stdout : list string
}.

Definition withStore (st : gmap key any) (w : world) : world :=
  mkWorld (env w) st (stdout w).

(** [fmt.Printf] of an already formatted text. *)
Definition fmtPrintf (text : string) (w : world) : world :=
  mkWorld (env w) (store w) (stdout w ++ [text]).

Definition Setenv (name v : string) (w : world) : world :=
  mkWorld (λ n, if decide (n = name) then v else env w n) (store w)
          (stdout w).

(** Modelled from the spec: [extract], declared outside the files at hand:
    "found=false when ctx is nil or carries no store". *)
Definition extract (ctx : context) (w : world) : option (gmap key any) :=
  match ctx with
  | Bound => Some (store w)
  | NilCtx | Unbound => None
  end.

(** ** Caller location *)

(** [strings.Split(s, sep)] for a one-byte separator: always at least one
    piece. *)
Fixpoint Split (s : string) (sep : Ascii.ascii) : list string :=
  match s with
  | EmptyString => [EmptyString]
  | String ch s' =>
      if decide (ch = sep) then EmptyString :: Split s' sep
      else match Split s' sep with
           | piece :: pieces => String ch piece :: pieces
           | [] => [String ch EmptyString]
           end
  end.

(** [strings.Join(elems, sep)] *)
Fixpoint Join (elems : list string) (sep : string) : string :=
  match elems with
  | [] => EmptyString
  | [x] => x
  | x :: rest => x +:+ sep +:+ Join rest sep
  end.

(** [files[len(files)-n:]] *)
Definition lastN {A} (n : nat) (l : list A) : list A :=
  drop (length l - n) l.

Definition slash : Ascii.ascii := "/"%char.

(** The caller location computed from what [runtime.Caller(1)] returns. *)
Definition callerFile (fileName : string) (line : Z) : string :=
  let files := Split fileName slash in
  if bool_decide (len files > 3)
  then Join (lastN 2 files) "/" +:+ ":" +:+ Sprintf_d line
  else Join files "/" +:+ ":" +:+ Sprintf_d line.

(** ** Append *)

(** The first half of an append: [value.LoadAndDelete(_LogMessages)] and
    the type assertion; [messages] stays nil unless the slot held a
    [[]LogMessage]. *)
Definition takeMessages (value : gmap key any)
  : list LogMessage * gmap key any :=
  let '(tmp, value') := LoadAndDelete _LogMessages value in
  (match tmp with
   | Some (AnyMessages existingMessages) => existingMessages
   | _ => []
   end, value').

(** The second half: [messages = append(messages, message)] and
    [value.Set(_LogMessages, messages)]. *)
Definition putMessages (messages : list LogMessage) (message : LogMessage)
    (value : gmap key any) : gmap key any :=
  Set_ _LogMessages (AnyMessages (messages ++ [message])) value.

Definition newline : string := String (Ascii.ascii_of_nat 10) EmptyString.

(** The body shared, up to the printed label and the level, by [Errorf],
    [Error], [DebugF], [Debug], [Printf] and [Print] after the production
    check.  [rendered] is the text [fmt.Sprintf(format, args...)] or
    [fmt.Sprint(args...)] produces; [fileName] and [line] are what
    [runtime.Caller(1)] returns. *)
Definition appendLog (label : string) (level : LogLevel) (ctx : context)
    (fileName : string) (line : Z) (rendered : string) (w : world) : world :=
  match ctx with
  | NilCtx =>
      fmtPrintf (label +:+ ": " +:+ rendered +:+ " (nil context)" +:+ newline) w
  | _ =>
      match extract ctx w with
      | None =>
          fmtPrintf (label +:+ ": " +:+ rendered +:+
                  " (logger not found in context)" +:+ newline) w
      | Some value =>
          let file := callerFile fileName line in
          let '(messages, value1) := takeMessages value in
          let message := {| File := file; Level := level;
                            Message := rendered |} in
          withStore (putMessages messages message value1) w
      end
  end.

Definition Errorf := appendLog "ERROR" err.
Definition Error := appendLog "ERROR" err.
Definition Printf := appendLog "INFO" print.
Definition Print := appendLog "INFO" print.

(** The messages accumulated in a store. *)
Definition storedMessages (value : gmap key any) : list LogMessage :=
  match value !! _LogMessages with
  | Some (AnyMessages ms) => ms
  | _ => []
  end.

(** ** Debug and the production switch *)

(** Bytes below [utf8.RuneSelf]. *)
Definition isASCIIByte (ch : ascii) : bool := (N_of_ascii ch <? 128)%N.

Definition isLowerByte (ch : ascii) : bool :=
  ((97 <=? N_of_ascii ch) && (N_of_ascii ch <=? 122))%N.

(** [c -= 'a' - 'A'] on a lower-case letter, other bytes unchanged. *)
Definition upperByte (ch : ascii) : ascii :=
  if isLowerByte ch then ascii_of_N (N_of_ascii ch - 32) else ch.

Fixpoint allBytes (f : ascii → bool) (s : string) : bool :=
  match s with
  | EmptyString => true
  | String ch s' => f ch && allBytes f s'
  end.

Fixpoint anyByte (f : ascii → bool) (s : string) : bool :=
  match s with
  | EmptyString => false
  | String ch s' => f ch || anyByte f s'
  end.

Fixpoint mapBytes (f : ascii → ascii) (s : string) : string :=
  match s with
  | EmptyString => EmptyString
  | String ch s' => String (f ch) (mapBytes f s')
  end.

Section Runtime.

(** [strings.Map(unicode.ToUpper, s)], the path [strings.ToUpper] takes
    for a string with a byte outside ASCII; the Unicode tables are not
    part of this development. *)
Variable unicodeToUpper : string → string.

(** [strings.ToUpper]: an ASCII-only string is returned as it is when it
    has no lower-case letter and upper-cased byte by byte otherwise. *)
Definition ToUpper (s : string) : string :=
  if allBytes isASCIIByte s then
    if anyByte isLowerByte s then mapBytes upperByte s else s
  else unicodeToUpper s.

(** [env.GetString(name)]: the current value of the process-wide
    environment variable. *)
Definition GetString (name : string) (w : world) : string := env w name.

(** The test that opens [DebugF] and [Debug];
    [!reflect.ValueOf(appEnv).IsZero()] says that [appEnv] is not the
    empty string. *)
Definition skipDebug (w : world) : bool :=
  let appEnv := ToUpper (GetString "APP_ENV" w) in
  bool_decide (appEnv ≠ "") && bool_decide (appEnv = "PRODUCTION").

Definition DebugF (ctx : context) (fileName : string) (line : Z)
    (rendered : string) (w : world) : world :=
  if skipDebug w then w
  else appendLog "DEBUG" debug ctx fileName line rendered w.

Definition Debug (ctx : context) (fileName : string) (line : Z)
    (rendered : string) (w : world) : world :=
  if skipDebug w then w
  else appendLog "DEBUG" debug ctx fileName line rendered w.

End Runtime.

(** ** Request identifier *)

Definition hexDigit (n : Z) : ascii :=
  default "0"%char
          (String.get (Z.to_nat n) "0123456789abcdef").

Definition hexByte (b : Z) : string :=
  String (hexDigit (b / 16)) (String (hexDigit (b mod 16)) EmptyString).

(** [hex.Encode] *)
Fixpoint hexEncode (bs : list Z) : string :=
  match bs with
  | [] => EmptyString
  | b :: bs' => hexByte b +:+ hexEncode bs'
  end.

(** [uuid.New()] of github.com/google/uuid: sixteen bytes from the random
    source [rnd], with the version and variant bits set. *)
Definition uuidNew (rnd : nat → Z) : list Z :=
  let u := map (λ i, rnd i mod 256) (seq 0 16) in
  let u := <[6%nat := Z.lor (Z.land (default 0 (u !! 6%nat)) 15) 64]> u in
  <[8%nat := Z.lor (Z.land (default 0 (u !! 8%nat)) 63) 128]> u.

(** [UUID.String()]: the form xxxxxxxx-xxxx-xxxx-xxxx-xxxxxxxxxxxx. *)
Definition uuidString (u : list Z) : string :=
  hexEncode (take 4 u) +:+ "-" +:+
  hexEncode (take 2 (drop 4 u)) +:+ "-" +:+
  hexEncode (take 2 (drop 6 u)) +:+ "-" +:+
  hexEncode (take 2 (drop 8 u)) +:+ "-" +:+
  hexEncode (drop 10 u).

(** [GetRequestId]; [rnd] is the randomness a call of [uuid.New] would
    draw. *)
Definition GetRequestId (ctx : context) (w : world) (rnd : nat → Z)
  : string :=
  match ctx with
  | NilCtx => uuidString (uuidNew rnd)
  | _ =>
      match extract ctx w with
      | None => uuidString (uuidNew rnd)
      | Some value =>
          match Load RequestId value with
          | None | Some AnyNil => uuidString (uuidNew rnd)
          | Some val =>
              match val with
              | AnyString v =>
                  if bool_decide (v ≠ "") then v
                  else uuidString (uuidNew rnd)
              | _ => uuidString (uuidNew rnd)
              end
          end
      end
  end.

(** ** Concurrent appenders *)

(** A goroutine running appends on the shared store: the messages it has
    still to append, and, between its [LoadAndDelete] and its [Set], the
    slice it loaded. *)
Record goroutine := mkGoroutine {
  todo : list LogMessage;
  held : option (list LogMessage)
}.

(** The next indivisible step of a goroutine: the [LoadAndDelete] of the
    append it is about to start, or the [Set] of the append it is in. *)
Definition goroutineStep (g : goroutine) (value : gmap key any)
  : option (goroutine * gmap key any) :=
  match todo g, held g with
  | [], _ => None
  | message :: rest, None =>
      let '(messages, value') := takeMessages value in
      Some ({| todo := message :: rest; held := Some messages |}, value')
  | message :: rest, Some messages =>
      Some ({| todo := rest; held := None |},
            putMessages messages message value)
  end.

(** Running the goroutines [gs] under a schedule, a list of indices
    saying whose step comes next. *)
Fixpoint runSchedule (gs : list goroutine) (value : gmap key any)
    (sched : list nat) : option (list goroutine * gmap key any) :=
  match sched with
  | [] => Some (gs, value)
  | i :: sched' =>
      g ← gs !! i;
      '(g', value') ← goroutineStep g value;
      runSchedule (<[i := g']> gs) value' sched'
  end.

Definition finished (g : goroutine) : bool :=
  bool_decide (todo g = [] ∧ held g = None).

(** A goroutine that will append the messages [ms]. *)
Definition appender (ms : list LogMessage) : goroutine :=
  {| todo := ms; held := None |}.

(** ** Facts about the caller location *)

Lemma Split_nonempty s sep : Split s sep ≠ [].
Proof.
  destruct s as [|ch s]; simpl; [done|].
  destruct (decide (ch = sep)); [done|]. by destruct (Split s sep).
Qed.

(** Joining the pieces of a split with the separator gives the string
    back. *)
Lemma Join_Split s sep : Join (Split s sep) (String sep EmptyString) = s.
Proof.
  induction s as [|ch s IH]; [done|]. simpl.
  pose proof (Split_nonempty s sep) as Hne.
  destruct (decide (ch = sep)) as [->|Hch].
  - destruct (Split s sep) as [|piece pieces] eqn:Hs; [done|].
    change (Join ("" :: piece :: pieces) (String sep ""))
      with (String sep (Join (piece :: pieces) (String sep ""))).
    by rewrite IH.
  - destruct (Split s sep) as [|piece pieces] eqn:Hs; [done|].
    destruct pieces as [|piece' pieces].
    + simpl in *. by rewrite IH.
    + change (Join (String ch piece :: piece' :: pieces) (String sep ""))
        with (String ch (Join (piece :: piece' :: pieces) (String sep ""))).
      by rewrite IH.
Qed.

(** [file] is at most the last [n] pieces of [fileName], then a colon and
    the line number. *)
Definition keepsAtMostLast (n : nat) (fileName : string) (line : Z)
    (file : string) : Prop :=
  ∃ m : nat, (m ≤ n)%nat ∧
    file = Join (lastN m (Split fileName slash)) "/" +:+ ":" +:+
           Sprintf_d line.

Lemma lastN_all {A} (l : list A) : lastN (length l) l = l.
Proof. unfold lastN. by rewrite Nat.sub_diag. Qed.

Lemma storedMessages_append label level fileName line rendered w :
  storedMessages
    (store (appendLog label level Bound fileName line rendered w)) =
  storedMessages (store w) ++
    [{| File := callerFile fileName line; Level := level;
        Message := rendered |}].
Proof.
  unfold appendLog, extract, takeMessages, putMessages, LoadAndDelete, Set_,
    storedMessages. simpl. rewrite lookup_insert_eq.
  destruct (store w !! _LogMessages) as [[]|]; done.
Qed.

(** C8 (as amended).  Every append through a bound context records as
    [File] the caller location [callerFile fileName line].  When the
    calling file's path splits at "/" into more than three pieces this is
    the last two pieces joined by "/", a colon and the line number;
    otherwise it is the whole path, a colon and the line number.  In all
    cases it is made of at most the last three pieces. *)
Theorem callerFile_trimmed (fileName : string) (line : Z) :
  (∀ label level rendered w,
     storedMessages
       (store (appendLog label level Bound fileName line rendered w)) =
     storedMessages (store w) ++
       [{| File := callerFile fileName line; Level := level;
           Message := rendered |}]) ∧
  (len (Split fileName slash) > 3 →
     callerFile fileName line =
       Join (lastN 2 (Split fileName slash)) "/" +:+ ":" +:+
       Sprintf_d line) ∧
  (len (Split fileName slash) <= 3 →
     callerFile fileName line = fileName +:+ ":" +:+ Sprintf_d line) ∧
  keepsAtMostLast 3 fileName line (callerFile fileName line).
Proof.
  split_and!.
  - intros. apply storedMessages_append.
  - intros Hlen. unfold callerFile. by rewrite bool_decide_eq_true_2.
  - intros Hlen. unfold callerFile.
    rewrite bool_decide_eq_false_2 by lia.
    pose proof (Join_Split fileName slash) as Hjoin.
    change (String slash "") with "/" in Hjoin. by rewrite Hjoin.
  - unfold callerFile. case_bool_decide as Hlen.
    + exists 2%nat. split; [lia|done].
    + exists (length (Split fileName slash)). split.
      * unfold len in Hlen. lia.
      * by rewrite lastN_all.
Qed.

(** C8 as stated fails: a caller in [app/handlers/user.go] (a path of
    three pieces, as a build with trimmed paths records it) is recorded
    with all three. *)
Lemma callerFile_keeps_three_segments :
  callerFile "app/handlers/user.go" 42 = "app/handlers/user.go:42" ∧
  ¬ keepsAtMostLast 2 "app/handlers/user.go" 42
      (callerFile "app/handlers/user.go" 42).
Proof.
  split; [reflexivity|].
  intros (m & Hm & Heq).
  destruct m as [|[|[|m]]]; [vm_compute in Heq; discriminate..|lia].
Qed.

Example callerFile_long_path :
  callerFile "/home/ci/go/src/gokit/handler/user.go" 17 =
  "handler/user.go:17".
Proof. reflexivity. Qed.

(** ** Facts about concurrent appends *)

(** An append through a bound context is the two steps of a goroutine,
    taken one right after the other. *)
Lemma appendLog_two_steps label level fileName line rendered w :
  runSchedule
    [appender [{| File := callerFile fileName line; Level := level;
                  Message := rendered |}]]
    (store w) [0%nat; 0%nat] =
  Some ([appender []],
        store (appendLog label level Bound fileName line rendered w)).
Proof. reflexivity. Qed.

Lemma runSchedule_one_append m ms value sched :
  runSchedule [appender (m :: ms)] value (0%nat :: 0%nat :: sched) =
  runSchedule [appender ms]
    (putMessages (storedMessages value) m (delete _LogMessages value)) sched.
Proof.
  cbn. unfold storedMessages.
  by destruct (value !! _LogMessages) as [[]|].
Qed.

(** Without interleaving nothing is lost: one goroutine appending [ms]
    leaves the earlier messages followed by [ms]. *)
Lemma sequential_appends ms value :
  ∃ value',
    runSchedule [appender ms] value (replicate (2 * length ms) 0%nat) =
      Some ([appender []], value') ∧
    storedMessages value' = storedMessages value ++ ms.
Proof.
  revert value. induction ms as [|m ms IH]; intros value.
  - exists value. by rewrite app_nil_r.
  - replace (2 * length (m :: ms))%nat with (S (S (2 * length ms)))
      by (simpl; lia).
    cbn [replicate]. rewrite runSchedule_one_append.
    destruct (IH (putMessages (storedMessages value) m
                    (delete _LogMessages value))) as (value' & Hrun & Hms).
    exists value'. split; [done|]. rewrite Hms.
    unfold putMessages, Set_. unfold storedMessages at 1.
    rewrite lookup_insert_eq. by rewrite <- (assoc_L (++)).
Qed.

(** The property C7 claims: whatever the schedule, once [G] goroutines
    have each appended their [M] messages to an empty store, the store
    holds [G * M] messages. *)
Definition appendsNeverLost : Prop :=
  ∀ (G M : nat) (message : nat → nat → LogMessage) (sched : list nat)
    (gs' : list goroutine) (value' : gmap key any),
    runSchedule (map (λ i, appender (map (message i) (seq 0 M))) (seq 0 G))
                ∅ sched = Some (gs', value') →
    forallb finished gs' = true →
    length (storedMessages value') = (G * M)%nat.

Definition messageA : LogMessage := mkLogMessage "handler/a.go:10" err "A".
Definition messageB : LogMessage := mkLogMessage "handler/b.go:20" err "B".

(** C7, at the failing input.  Two goroutines each append one message to
    an empty store; when both do their [LoadAndDelete] before either does
    its [Set], both finish and the store holds one message, the second
    [Set] having overwritten the first. *)
Theorem concurrent_appends_lose_message :
  ∃ value',
    runSchedule [appender [messageA]; appender [messageB]] ∅
                [0%nat; 1%nat; 0%nat; 1%nat] =
      Some ([appender []; appender []], value') ∧
    forallb finished [appender []; appender []] = true ∧
    storedMessages value' = [messageB].
Proof.
  eexists. split_and!; [reflexivity|reflexivity|].
  unfold storedMessages, putMessages, Set_. by rewrite lookup_insert_eq.
Qed.

Lemma appendsNeverLost_fails : ¬ appendsNeverLost.
Proof.
  intros Hclaim.
  specialize (Hclaim 2%nat 1%nat
                (λ i _, if decide (i = 0%nat) then messageA else messageB)
                [0%nat; 1%nat; 0%nat; 1%nat]
                [appender []; appender []]
                (putMessages [] messageB
                   (putMessages [] messageA ∅))).
  assert (length (storedMessages
                    (putMessages [] messageB (putMessages [] messageA ∅)))
          = 1%nat) as Hone.
  { unfold storedMessages, putMessages, Set_. by rewrite lookup_insert_eq. }
  rewrite Hone in Hclaim. discriminate Hclaim; reflexivity.
Qed.

(** ** Facts about the production switch *)

Lemma isASCIIByte_upperByte ch : isASCIIByte (upperByte ch) = isASCIIByte ch.
Proof. by destruct ch as [[] [] [] [] [] [] [] []]. Qed.

Lemma allBytes_ASCII_upper s :
  allBytes isASCIIByte (mapBytes upperByte s) = allBytes isASCIIByte s.
Proof.
  induction s as [|ch s IH]; [done|]. simpl.
  by rewrite isASCIIByte_upperByte, IH.
Qed.

Lemma mapBytes_upper_no_lower s :
  anyByte isLowerByte s = false → mapBytes upperByte s = s.
Proof.
  induction s as [|ch s IH]; [done|]. simpl.
  intros [Hch Hs]%orb_false_elim. unfold upperByte at 1.
  by rewrite Hch, IH.
Qed.

(** Equality up to the case of ASCII letters. *)
Definition equalFold (s t : string) : Prop :=
  mapBytes upperByte s = mapBytes upperByte t.

Section RuntimeFacts.

Variable unicodeToUpper : string → string.

(** On a string that is "PRODUCTION" up to case, [strings.ToUpper]
    yields "PRODUCTION". *)
Lemma ToUpper_production s :
  equalFold s "PRODUCTION" → ToUpper unicodeToUpper s = "PRODUCTION".
Proof.
  unfold equalFold. change (mapBytes upperByte "PRODUCTION")
    with "PRODUCTION". intros Hs. unfold ToUpper.
  rewrite <- allBytes_ASCII_upper, Hs. simpl.
  destruct (anyByte isLowerByte s) eqn:Hlow; [done|].
  by rewrite <- (mapBytes_upper_no_lower s Hlow).
Qed.

Lemma skipDebug_true w :
  skipDebug unicodeToUpper w = true ↔
  ToUpper unicodeToUpper (GetString "APP_ENV" w) = "PRODUCTION".
Proof.
  unfold skipDebug. rewrite andb_true_iff, !bool_decide_eq_true.
  split; [by intros [_ ?]|]. intros ->. done.
Qed.

(** C9.  When [APP_ENV] is "PRODUCTION" up to the case of its letters,
    [Debug] and [DebugF] return the world as they found it, for every
    context: no store is modified and nothing is printed.  The variable is
    read at each call: once [APP_ENV] has been changed to a value that
    does not upper-case to "PRODUCTION", the next [Debug] through a bound
    context appends its message. *)
Theorem Debug_noop_in_production (ctx : context) (fileName : string)
    (line : Z) (rendered : string) (w : world)
    (Hprod : equalFold (GetString "APP_ENV" w) "PRODUCTION") :
  Debug unicodeToUpper ctx fileName line rendered w = w ∧
  DebugF unicodeToUpper ctx fileName line rendered w = w ∧
  ∀ v, ToUpper unicodeToUpper v ≠ "PRODUCTION" →
       storedMessages
         (store (Debug unicodeToUpper Bound fileName line rendered
                   (Setenv "APP_ENV" v
                      (Debug unicodeToUpper ctx fileName line rendered w))))
       = storedMessages (store w) ++
           [{| File := callerFile fileName line; Level := debug;
               Message := rendered |}].
Proof.
  assert (skipDebug unicodeToUpper w = true) as Hskip
    by (apply skipDebug_true; by apply ToUpper_production).
  unfold Debug, DebugF. rewrite Hskip. split_and!; [done..|].
  intros v Hv.
  assert (skipDebug unicodeToUpper (Setenv "APP_ENV" v w) = false) as Hno.
  { apply not_true_is_false. rewrite skipDebug_true.
    unfold GetString, Setenv. simpl. done. }
  rewrite Hno. by rewrite storedMessages_append.
Qed.

End RuntimeFacts.

(** A production process with a request in flight. *)
Definition sampleWorld : world :=
  {| env := λ name, if decide (name = "APP_ENV") then "Production" else "";
     store := {[ RequestId := AnyString "req-42" ]};
     stdout := [] |}.

Lemma Debug_noop_in_production_witness :
  Debug (λ s, s) Bound "svc/handler/user.go" 12 "cache miss" sampleWorld
    = sampleWorld ∧
  DebugF (λ s, s) Bound "svc/handler/user.go" 12 "cache miss" sampleWorld
    = sampleWorld ∧
  ∀ v, ToUpper (λ s, s) v ≠ "PRODUCTION" →
       storedMessages
         (store (Debug (λ s, s) Bound "svc/handler/user.go" 12 "cache miss"
                   (Setenv "APP_ENV" v
                      (Debug (λ s, s) Bound "svc/handler/user.go" 12
                             "cache miss" sampleWorld))))
       = storedMessages (store sampleWorld) ++
           [{| File := callerFile "svc/handler/user.go" 12; Level := debug;
               Message := "cache miss" |}].
Proof.
  apply (Debug_noop_in_production (λ s, s) Bound "svc/handler/user.go" 12
           "cache miss" sampleWorld).
  reflexivity.
Defined.

Example Debug_in_development :
  storedMessages
    (store (Debug (λ s, s) Bound "svc/handler/user.go" 12 "cache miss"
              (Setenv "APP_ENV" "development" sampleWorld))) =
  [mkLogMessage "svc/handler/user.go:12" debug "cache miss"].
Proof. reflexivity. Qed.

(** ** Facts about the request identifier *)

Lemma hexEncode_length bs :
  String.length (hexEncode bs) = (2 * length bs)%nat.
Proof.
  induction bs as [|b bs IH]; [done|]. simpl hexEncode.
  rewrite length_append, IH. simpl. lia.
Qed.

Lemma uuidNew_length rnd : length (uuidNew rnd) = 16%nat.
Proof.
  unfold uuidNew. by rewrite !length_insert, length_map, length_seq.
Qed.

(** A rendered UUID has 36 characters. *)
Lemma uuidString_length rnd :
  String.length (uuidString (uuidNew rnd)) = 36%nat.
Proof.
  unfold uuidString.
  rewrite !length_append, !hexEncode_length, !length_take, !length_drop,
    uuidNew_length.
  reflexivity.
Qed.

(** A lower-case hexadecimal digit. *)
Definition isHexDigit (ch : ascii) : bool :=
  ((48 <=? N_of_ascii ch) && (N_of_ascii ch <=? 57) ||
   (97 <=? N_of_ascii ch) && (N_of_ascii ch <=? 102))%N.

(** The positions of the four dashes in the form 8-4-4-4-12. *)
Definition isDashPosition (i : nat) : bool :=
  ((i =? 8) || (i =? 13) || (i =? 18) || (i =? 23))%nat.

(** A text of the form xxxxxxxx-xxxx-xxxx-xxxx-xxxxxxxxxxxx: 36 bytes,
    dashes at positions 8, 13, 18 and 23, lower-case hexadecimal digits
    everywhere else. *)
Definition isUUIDText (s : string) : Prop :=
  String.length s = 36%nat ∧
  ∀ (i : nat) (ch : ascii), String.get i s = Some ch →
    if isDashPosition i then ch = "-"%char else isHexDigit ch = true.

(** The marks of a random (version 4, RFC 4122 variant) UUID: the digit
    4 opens the third group and one of 8, 9, a, b the fourth. *)
Definition isVersion4Text (s : string) : Prop :=
  String.get 14 s = Some "4"%char ∧
  ∃ v, String.get 19 s = Some v ∧ v ∈ ["8"; "9"; "a"; "b"]%char.

(** Where the first digit of byte [i] of a UUID stands in its text. *)
Definition textPosition (i : nat) : nat :=
  (2 * i + (if i <? 4 then 0 else if i <? 6 then 1 else if i <? 8 then 2
            else if i <? 10 then 3 else 4))%nat.

Lemma hexDigit_hex n : isHexDigit (hexDigit n) = true.
Proof.
  unfold hexDigit. generalize (Z.to_nat n). intros k.
  do 16 (destruct k as [|k]; [reflexivity|]). reflexivity.
Qed.

Lemma range_check (P : Z → bool) (n : Z) :
  forallb P (seqZ 0 n) = true → ∀ y, 0 <= y < n → P y = true.
Proof.
  intros Hall y Hy. rewrite forallb_forall in Hall. apply Hall.
  apply list_elem_of_In, elem_of_seqZ. lia.
Qed.

Lemma version_nibble x : Z.lor (Z.land x 15) 64 / 16 = 4.
Proof.
  change 15 with (Z.ones 4). rewrite Z.land_ones by lia.
  assert (0 <= x mod 2 ^ 4 < 16) as Hy by (apply Z.mod_pos_bound; lia).
  apply Z.eqb_eq.
  by apply (range_check (λ y, Z.lor y 64 / 16 =? 4) 16).
Qed.

Lemma variant_nibble x :
  hexDigit (Z.lor (Z.land x 63) 128 / 16) ∈ ["8"; "9"; "a"; "b"]%char.
Proof.
  change 63 with (Z.ones 6). rewrite Z.land_ones by lia.
  assert (0 <= x mod 2 ^ 6 < 64) as Hy by (apply Z.mod_pos_bound; lia).
  pose proof (range_check
    (λ y, bool_decide (hexDigit (Z.lor y 128 / 16) ∈ ["8"; "9"; "a"; "b"]%char))
    64 eq_refl _ Hy) as H.
  by apply bool_decide_eq_true in H.
Qed.

Lemma uuidNew_shape rnd :
  uuidNew rnd =
  [rnd 0%nat mod 256; rnd 1%nat mod 256; rnd 2%nat mod 256; rnd 3%nat mod 256;
   rnd 4%nat mod 256; rnd 5%nat mod 256;
   Z.lor (Z.land (rnd 6%nat mod 256) 15) 64; rnd 7%nat mod 256;
   Z.lor (Z.land (rnd 8%nat mod 256) 63) 128; rnd 9%nat mod 256;
   rnd 10%nat mod 256; rnd 11%nat mod 256; rnd 12%nat mod 256;
   rnd 13%nat mod 256; rnd 14%nat mod 256; rnd 15%nat mod 256].
Proof. reflexivity. Qed.

(** The rendering of a new UUID has the UUID form and the version-4
    marks, and shows every random byte drawn, other than the two that
    carry the marks, as its two hexadecimal digits. *)
Lemma uuidString_format rnd :
  isUUIDText (uuidString (uuidNew rnd)) ∧
  isVersion4Text (uuidString (uuidNew rnd)) ∧
  ∀ i : nat, (i < 16)%nat → i ≠ 6%nat → i ≠ 8%nat →
    String.get (textPosition i) (uuidString (uuidNew rnd)) =
      Some (hexDigit (rnd i mod 256 / 16)) ∧
    String.get (S (textPosition i)) (uuidString (uuidNew rnd)) =
      Some (hexDigit (rnd i mod 256 mod 16)).
Proof.
  rewrite uuidNew_shape.
  split_and!.
  - split; [reflexivity|]. intros i ch.
    do 36 (destruct i as [|i];
           [intros [= <-]; first [reflexivity | apply hexDigit_hex]|]).
    intros Hget. discriminate Hget.
  - split.
    + change (Some (hexDigit (Z.lor (Z.land (rnd 6%nat mod 256) 15) 64 / 16))
              = Some "4"%char).
      by rewrite version_nibble.
    + eexists. split; [reflexivity|]. apply variant_nibble.
  - intros i Hi H6 H8.
    do 16 (destruct i as [|i]; [first [done | split; reflexivity]|]). lia.
Qed.

Definition isAnyString (x : any) : bool :=
  match x with AnyString _ => true | _ => false end.

(** C10.  [GetRequestId] never returns the empty string.  It returns the
    stored identifier unchanged when the context carries a store whose
    request-identifier slot holds a non-empty string, and the rendering of
    a freshly generated UUID in every other case: a nil context, a context
    without a store, an absent or nil slot, a slot holding something that
    is not a string, or the empty string.  That rendering is a text of 36
    bytes of the form 8-4-4-4-12 in lower-case hexadecimal digits, with
    the marks of a version-4 UUID, in which every random byte drawn by
    this call, other than the two carrying the marks, stands as its two
    digits. *)
Theorem GetRequestId_nonempty (ctx : context) (w : world) (rnd : nat → Z) :
  GetRequestId ctx w rnd ≠ "" ∧
  (∀ value v,
     extract ctx w = Some value →
     Load RequestId value = Some (AnyString v) → v ≠ "" →
     GetRequestId ctx w rnd = v) ∧
  (ctx = NilCtx ∨ extract ctx w = None ∨
   (∃ value, extract ctx w = Some value ∧
      (Load RequestId value = None ∨
       Load RequestId value = Some AnyNil ∨
       (∃ x, Load RequestId value = Some x ∧ isAnyString x = false) ∨
       Load RequestId value = Some (AnyString ""))) →
   GetRequestId ctx w rnd = uuidString (uuidNew rnd) ∧
   isUUIDText (GetRequestId ctx w rnd) ∧
   isVersion4Text (GetRequestId ctx w rnd) ∧
   ∀ i : nat, (i < 16)%nat → i ≠ 6%nat → i ≠ 8%nat →
     String.get (textPosition i) (GetRequestId ctx w rnd) =
       Some (hexDigit (rnd i mod 256 / 16)) ∧
     String.get (S (textPosition i)) (GetRequestId ctx w rnd) =
       Some (hexDigit (rnd i mod 256 mod 16))).
Proof.
  assert (uuidString (uuidNew rnd) ≠ "") as Huuid.
  { intros Hnil. pose proof (uuidString_length rnd) as Hlen.
    by rewrite Hnil in Hlen. }
  split_and!.
  - unfold GetRequestId. destruct ctx; simpl; try done.
    destruct (Load RequestId (store w)) as [[|v| |]|]; try done.
    by case_bool_decide.
  - intros value v Hex Hload Hv. unfold GetRequestId.
    destruct ctx; simpl in *; try done.
    injection Hex as <-. rewrite Hload. by rewrite bool_decide_eq_true_2.
  - intros Hcase.
    assert (GetRequestId ctx w rnd = uuidString (uuidNew rnd)) as ->.
    { unfold GetRequestId.
      destruct Hcase as [->|[Hex|(value & Hex & Hslot)]]; [done|..].
      + destruct ctx; simpl in *; done.
      + destruct ctx; simpl in *; try done. injection Hex as <-.
        destruct Hslot as [->|[->|[(x & -> & Hx)| ->]]]; try done.
        by destruct x. }
    split; [done|]. apply uuidString_format.
Qed.

Example GetRequestId_stored :
  GetRequestId Bound sampleWorld (λ _, 0) = "req-42".
Proof. reflexivity. Qed.

Example GetRequestId_generated :
  GetRequestId NilCtx sampleWorld (λ i, Z.of_nat i * 17) =
  "00112233-4455-4677-8899-aabbccddeeff".
Proof. reflexivity. Qed.

(** ** Further properties of the request logger *)

(** [SetSaltKey]; [reflect.ValueOf(val).IsZero()] says that [val] is the
    empty string. *)
Definition SetSaltKey (ctx : context) (val : string) (w : world) : world :=
  match ctx with
  | NilCtx => w
  | _ =>
      match extract ctx w with
      | None => w
      | Some value =>
          let val :=
            if bool_decide (val = "") then GetString "NEW_SALT_KEY" w
            else val in
          withStore (Set_ _SaltKey (AnyString val) value) w
      end
  end.

(** [GetSaltKey] *)
Definition GetSaltKey (ctx : context) (w : world) : string :=
  let defaultSaltKey := GetString "NEW_SALT_KEY" w in
  match ctx with
  | NilCtx => defaultSaltKey
  | _ =>
      match extract ctx w with
      | None => defaultSaltKey
      | Some value =>
          match Load _SaltKey value with
          | None | Some AnyNil => defaultSaltKey
          | Some val =>
              match val with
              | AnyString v =>
                  if bool_decide (v ≠ "") then v else defaultSaltKey
              | _ => defaultSaltKey
              end
          end
      end
  end.

(** A logging call: the level and what the call supplies. *)
Record logCall := mkLogCall {
  callLevel : LogLevel;
  callFile : string;
  callLine : Z;
  callText : string
}.

Definition levelLabel (level : LogLevel) : string :=
  match level with
  | err => "ERROR"
  | debug => "DEBUG"
  | print => "INFO"
  end.

(** The calls [calls] made one after the other through [ctx]. *)
Definition appendAll (ctx : context) (calls : list logCall) (w : world)
  : world :=
  fold_left
    (λ w k, appendLog (levelLabel (callLevel k)) (callLevel k) ctx
                      (callFile k) (callLine k) (callText k) w)
    calls w.

Definition messageOf (k : logCall) : LogMessage :=
  {| File := callerFile (callFile k) (callLine k); Level := callLevel k;
     Message := callText k |}.

(** An append never touches anything but its own slot and never fails
    silently.  Through a bound context it prints nothing and leaves every
    other slot of the store as it was; through a nil context or one
    without a store it leaves the store as it was and prints exactly one
    line, which carries the rendered message.  The environment is never
    changed. *)
Theorem appendLog_frame (label : string) (level : LogLevel) (ctx : context)
    (fileName : string) (line : Z) (rendered : string) (w : world) :
  let w' := appendLog label level ctx fileName line rendered w in
  env w' = env w ∧
  (ctx = Bound →
     stdout w' = stdout w ∧
     ∀ k, k ≠ _LogMessages → store w' !! k = store w !! k) ∧
  (ctx ≠ Bound →
     store w' = store w ∧
     ∃ suffix, stdout w' =
                 stdout w ++ [label +:+ ": " +:+ rendered +:+ suffix]).
Proof.
  destruct ctx; simpl; split_and!; try done.
  - intros _. split; [done|]. by eexists.
  - intros _. split; [done|]. by eexists.
  - intros _. split; [done|]. intros k Hk.
    unfold putMessages, Set_. rewrite lookup_insert_ne by done.
    by rewrite lookup_delete_ne.
Qed.

Lemma appendAll_snoc ctx calls k w :
  appendAll ctx (calls ++ [k]) w =
  appendLog (levelLabel (callLevel k)) (callLevel k) ctx (callFile k)
            (callLine k) (callText k) (appendAll ctx calls w).
Proof. unfold appendAll. by rewrite fold_left_app. Qed.

(** Appends made one after the other through a bound context accumulate
    in call order behind the messages already stored, each with its own
    caller location, level and text: nothing is lost without
    concurrency. *)
Theorem appends_accumulate (calls : list logCall) (w : world) :
  storedMessages (store (appendAll Bound calls w)) =
  storedMessages (store w) ++ map messageOf calls.
Proof.
  induction calls as [|k calls IH] using rev_ind.
  - simpl. by rewrite app_nil_r.
  - rewrite appendAll_snoc, storedMessages_append, IH, map_app.
    by rewrite <- (assoc_L (++)).
Qed.

(** Salt key round trip.  After [SetSaltKey] through a bound context,
    [GetSaltKey] returns the value set, or, when the value set was empty,
    the environment's [NEW_SALT_KEY]; through a nil context or one
    without a store [SetSaltKey] does nothing and [GetSaltKey] returns
    [NEW_SALT_KEY]. *)
Theorem SaltKey_round_trip (ctx : context) (val : string) (w : world) :
  GetSaltKey Bound (SetSaltKey Bound val w) =
    (if bool_decide (val = "") then GetString "NEW_SALT_KEY" w else val) ∧
  (ctx ≠ Bound →
     SetSaltKey ctx val w = w ∧
     GetSaltKey ctx w = GetString "NEW_SALT_KEY" w).
Proof.
  split.
  - unfold GetSaltKey, SetSaltKey, Load, Set_. simpl.
    rewrite lookup_insert_eq. unfold GetString.
    destruct (bool_decide (val = "")) eqn:Hval.
    + clear Hval. by case_bool_decide.
    + apply bool_decide_eq_false in Hval. by rewrite bool_decide_eq_true_2.
  - by destruct ctx.
Qed.

(** The slots of a store do not interfere: appending a message changes
    neither the request identifier nor the salt key read back, and
    setting the salt key changes neither the request identifier nor the
    accumulated messages. *)
Theorem slots_independent (label : string) (level : LogLevel)
    (fileName : string) (line : Z) (rendered val : string) (w : world)
    (rnd : nat → Z) :
  GetRequestId Bound (appendLog label level Bound fileName line rendered w)
               rnd = GetRequestId Bound w rnd ∧
  GetSaltKey Bound (appendLog label level Bound fileName line rendered w) =
    GetSaltKey Bound w ∧
  GetRequestId Bound (SetSaltKey Bound val w) rnd =
    GetRequestId Bound w rnd ∧
  storedMessages (store (SetSaltKey Bound val w)) =
    storedMessages (store w).
Proof.
  unfold GetRequestId, GetSaltKey, SetSaltKey, storedMessages, Load, Set_.
  simpl. unfold putMessages, Set_.
  rewrite !lookup_insert_ne, !lookup_delete_ne by done. done.
Qed.

(** *** Debug outside production *)

Lemma ToUpper_ascii (unicodeToUpper : string → string) s :
  allBytes isASCIIByte s = true →
  ToUpper unicodeToUpper s = mapBytes upperByte s.
Proof.
  intros Hascii. unfold ToUpper. rewrite Hascii.
  destruct (anyByte isLowerByte s) eqn:Hlow; [done|].
  by rewrite mapBytes_upper_no_lower.
Qed.

(** The production switch is exact.  When [APP_ENV] is ASCII-only and is
    not "PRODUCTION" up to case (unset, "staging", "prod", "production "
    with a trailing blank, ...), [Debug] and [DebugF] behave like the
    other levels: they append through a bound context and print
    otherwise. *)
Theorem Debug_active_outside_production (unicodeToUpper : string → string)
    (ctx : context) (fileName : string) (line : Z) (rendered : string)
    (w : world)
    (Hascii : allBytes isASCIIByte (GetString "APP_ENV" w) = true)
    (Hother : ¬ equalFold (GetString "APP_ENV" w) "PRODUCTION") :
  Debug unicodeToUpper ctx fileName line rendered w =
    appendLog "DEBUG" debug ctx fileName line rendered w ∧
  DebugF unicodeToUpper ctx fileName line rendered w =
    appendLog "DEBUG" debug ctx fileName line rendered w.
Proof.
  assert (skipDebug unicodeToUpper w = false) as Hskip.
  { apply not_true_is_false. rewrite skipDebug_true.
    by rewrite ToUpper_ascii. }
  unfold Debug, DebugF. by rewrite Hskip.
Qed.

Lemma Debug_active_outside_production_witness :
  Debug (λ s, s) Bound "svc/handler/user.go" 12 "cache miss"
        (Setenv "APP_ENV" "production " sampleWorld) =
    appendLog "DEBUG" debug Bound "svc/handler/user.go" 12 "cache miss"
              (Setenv "APP_ENV" "production " sampleWorld) ∧
  DebugF (λ s, s) Bound "svc/handler/user.go" 12 "cache miss"
         (Setenv "APP_ENV" "production " sampleWorld) =
    appendLog "DEBUG" debug Bound "svc/handler/user.go" 12 "cache miss"
              (Setenv "APP_ENV" "production " sampleWorld).
Proof.
  apply (Debug_active_outside_production (λ s, s) Bound
           "svc/handler/user.go" 12 "cache miss"
           (Setenv "APP_ENV" "production " sampleWorld)).
  - reflexivity.
  - unfold equalFold. vm_compute. discriminate.
Defined.

(** *** What concurrent appends cannot do *)

(** The slice a goroutine holds between its two steps. *)
Definition heldOf (g : goroutine) : list LogMessage := default [] (held g).

(** Every message that is in the store, held by a goroutine, or still to
    be appended. *)
Definition inFlight (gs : list goroutine) (value : gmap key any)
  : list LogMessage :=
  storedMessages value ++ mjoin (map heldOf gs) ++ mjoin (map todo gs).

Lemma join_map_lookup {A} (f : goroutine → list A) gs i g :
  gs !! i = Some g →
  mjoin (map f gs) ≡ₚ f g ++ mjoin (map f (take i gs ++ drop (S i) gs)).
Proof.
  intros Hi. rewrite <- (take_drop_middle gs i g Hi) at 1.
  rewrite !map_app, !join_app. simpl. apply Permutation_app_swap_app.
Qed.

Lemma join_map_insert {A} (f : goroutine → list A) gs i g g' :
  gs !! i = Some g →
  mjoin (map f (<[i := g']> gs)) ≡ₚ
  f g' ++ mjoin (map f (take i gs ++ drop (S i) gs)).
Proof.
  intros Hi. rewrite insert_take_drop by (by eapply lookup_lt_Some).
  rewrite !map_app, !join_app. simpl. apply Permutation_app_swap_app.
Qed.

Lemma storedMessages_take value :
  takeMessages value = (storedMessages value, delete _LogMessages value) ∧
  storedMessages (delete _LogMessages value) = [].
Proof.
  unfold takeMessages, LoadAndDelete, storedMessages.
  rewrite lookup_delete_eq. split; [|done].
  by destruct (value !! _LogMessages) as [[]|].
Qed.

Lemma storedMessages_put ms m value :
  storedMessages (putMessages ms m value) = ms ++ [m].
Proof.
  unfold storedMessages, putMessages, Set_. by rewrite lookup_insert_eq.
Qed.

Lemma goroutineStep_inFlight gs i g g' value value' :
  gs !! i = Some g → goroutineStep g value = Some (g', value') →
  inFlight (<[i := g']> gs) value' ⊆+ inFlight gs value.
Proof.
  intros Hi Hstep. unfold inFlight.
  rewrite (join_map_insert heldOf gs i g g' Hi),
    (join_map_insert todo gs i g g' Hi),
    (join_map_lookup heldOf gs i g Hi), (join_map_lookup todo gs i g Hi).
  set (Hrest := mjoin (map heldOf (take i gs ++ drop (S i) gs))).
  set (Trest := mjoin (map todo (take i gs ++ drop (S i) gs))).
  unfold goroutineStep in Hstep. unfold heldOf at 2.
  destruct (todo g) as [|m rest] eqn:Htodo; [done|].
  destruct (held g) as [ms|] eqn:Hheld.
  - injection Hstep as <- <-. rewrite storedMessages_put. simpl.
    apply submseteq_inserts_l. apply Permutation_submseteq.
    rewrite <- !(assoc_L (++)). apply Permutation_app_head. simpl.
    apply Permutation_middle.
  - destruct (storedMessages_take value) as [Htake Hnil].
    rewrite Htake in Hstep. injection Hstep as <- <-.
    rewrite Hnil. simpl. by rewrite <- !(assoc_L (++)).
Qed.

(** Concurrent appends can lose messages but can neither duplicate nor
    invent one: under every schedule the messages in the store at the end
    are, as a multiset, among those that were in the store, held by a
    goroutine or still to be appended at the start; so the store never
    holds more messages than were appended to it, and holds no message
    twice when the appended messages were distinct. *)
Theorem concurrent_appends_no_duplicates (gs gs' : list goroutine)
    (value value' : gmap key any) (sched : list nat)
    (Hrun : runSchedule gs value sched = Some (gs', value')) :
  storedMessages value' ⊆+ inFlight gs value ∧
  (length (storedMessages value') ≤ length (inFlight gs value))%nat ∧
  (NoDup (inFlight gs value) → NoDup (storedMessages value')).
Proof.
  assert (inFlight gs' value' ⊆+ inFlight gs value) as Hsub.
  { revert gs value Hrun. induction sched as [|i sched IH];
      intros gs value Hrun.
    - by injection Hrun as <- <-.
    - simpl in Hrun. destruct (gs !! i) as [g|] eqn:Hi; [|done].
      simpl in Hrun.
      destruct (goroutineStep g value) as [[g' value1]|] eqn:Hstep; [|done].
      simpl in Hrun. etrans; [by apply IH|].
      by eapply goroutineStep_inFlight. }
  assert (storedMessages value' ⊆+ inFlight gs value) as Hstored.
  { etrans; [|done]. unfold inFlight. by apply submseteq_inserts_r. }
  split_and!; [done|by apply submseteq_length|].
  intros Hnd. apply submseteq_sublist_l in Hstored as (l & Hsl & Hperm).
  apply (sublist_NoDup _ l); [|done]. by rewrite Hperm.
Qed.

(** The store two racing appenders end with when both load before either
    stores. *)
Definition racedStore : gmap key any :=
  putMessages [] messageB (putMessages [] messageA ∅).

Lemma concurrent_appends_no_duplicates_witness :
  storedMessages racedStore ⊆+
    inFlight [appender [messageA]; appender [messageB]] ∅ ∧
  (length (storedMessages racedStore) ≤
   length (inFlight [appender [messageA]; appender [messageB]] ∅))%nat ∧
  (NoDup (inFlight [appender [messageA]; appender [messageB]] ∅) →
   NoDup (storedMessages racedStore)).
Proof.
  apply (concurrent_appends_no_duplicates
           [appender [messageA]; appender [messageB]]
           [appender []; appender []]
           ∅ racedStore [0%nat; 1%nat; 0%nat; 1%nat]).
  reflexivity.
Defined.

End CtxLogger.
